(** * Console Snake: a shallow embedding of [src/Snake.cpp]

    The development follows the source file top to bottom: the C++ [int]
    (module [Int]), [Vec2] and [Dir], the random source, and the [Game]
    class with [reset], [handleInput], [step], [hitWall], [hitSelf],
    [isOpposite], [spawnFood] and [buildBuffer].  The theorems about the
    game follow the definitions. *)

From Stdlib Require Import ZArith Lia Bool Ascii String DecimalString Eqdep_dec.
From stdpp Require Import base list numbers.

Local Open Scope Z_scope.

(** ** The C++ [int]

    A 32-bit two's complement integer: a [Z] together with the evidence
    that it lies in the representable range.  Signed overflow is undefined
    in C++; the operations below wrap around, which is what the usual
    targets compute, and every theorem that needs an operation not to
    overflow says so. *)
Module Int.

Definition min_signed : Z := -2147483648.
Definition max_signed : Z := 2147483647.
Definition modulus : Z := 4294967296.

Definition in_range (z : Z) : bool := (min_signed <=? z) && (z <=? max_signed).

Record int : Type := mkint { signed : Z; signed_in_range : in_range signed = true }.

Definition wrap (z : Z) : Z := (z - min_signed) mod modulus + min_signed.

Lemma wrap_in_range (z : Z) : in_range (wrap z) = true.
Proof.
  unfold in_range, wrap, min_signed, max_signed, modulus.
  pose proof (Z.mod_pos_bound (z - -2147483648) 4294967296 eq_refl).
  apply andb_true_intro; split; apply Z.leb_le; lia.
Qed.

Definition repr (z : Z) : int := mkint (wrap z) (wrap_in_range z).

Definition add (a b : int) : int := repr (signed a + signed b).
Definition sub (a b : int) : int := repr (signed a - signed b).
(** C++ integer division truncates towards zero. *)
Definition divs (a b : int) : int := repr (Z.quot (signed a) (signed b)).
Definition max (a b : int) : int := if signed a <? signed b then b else a.

Definition eqb (a b : int) : bool := signed a =? signed b.
Definition leb (a b : int) : bool := signed a <=? signed b.
Definition ltb (a b : int) : bool := signed a <? signed b.
Definition geb (a b : int) : bool := signed a >=? signed b.

Lemma signed_range (a : int) : min_signed <= signed a <= max_signed.
Proof.
  destruct a as [z Hz]; simpl. unfold in_range in Hz.
  apply andb_prop in Hz as [H1 H2]. apply Z.leb_le in H1, H2. lia.
Qed.

Lemma signed_inj (a b : int) : signed a = signed b -> a = b.
Proof.
  destruct a as [x Hx], b as [y Hy]; simpl; intros ->.
  f_equal. apply UIP_dec. apply bool_dec.
Qed.

Lemma wrap_small (z : Z) : min_signed <= z <= max_signed -> wrap z = z.
Proof.
  unfold wrap, min_signed, max_signed, modulus; intros H.
  rewrite Z.mod_small; lia.
Qed.

Lemma signed_repr (z : Z) : min_signed <= z <= max_signed -> signed (repr z) = z.
Proof. apply wrap_small. Qed.

Lemma repr_signed (a : int) : repr (signed a) = a.
Proof. apply signed_inj. apply signed_repr, signed_range. Qed.

Lemma wrap_wrap_add (a b : Z) : wrap (wrap a + b) = wrap (a + b).
Proof.
  unfold wrap. f_equal.
  replace ((a - min_signed) mod modulus + min_signed + b - min_signed)
    with ((a - min_signed) mod modulus + b) by lia.
  replace (a + b - min_signed) with ((a - min_signed) + b) by lia.
  rewrite Zplus_mod_idemp_l. reflexivity.
Qed.

Lemma eqb_eq (a b : int) : eqb a b = true <-> a = b.
Proof.
  unfold eqb. rewrite Z.eqb_eq. split; [apply signed_inj | congruence].
Qed.

Lemma eqb_neq (a b : int) : eqb a b = false <-> a <> b.
Proof.
  rewrite <- eqb_eq. destruct (eqb a b); split; congruence.
Qed.

#[global] Instance int_eq_dec : EqDecision int.
Proof.
  intros a b. destruct (eqb a b) eqn:E.
  - left. now apply eqb_eq.
  - right. now apply eqb_neq.
Defined.

End Int.

Abbreviation int := Int.int.
Coercion Int.signed : Int.int >-> Z.

(** ** Outcomes of running a member function

    [Ok] is a normal return.  [Undefined] stands for undefined behaviour
    (reading [front()] of an empty deque, indexing outside a container,
    asking the distribution for an empty range), [Throws] for an uncaught
    exception of the standard library, and [OutOfFuel] for a loop of the
    source that is still running when the fuel given to the model is
    used up. *)
Inductive result (A : Type) : Type :=
| Ok (a : A)
| Undefined
| Throws
| OutOfFuel.

Arguments Ok {A} a.
Arguments Undefined {A}.
Arguments Throws {A}.
Arguments OutOfFuel {A}.

#[global] Instance result_ret : MRet result := fun A a => Ok a.
#[global] Instance result_bind : MBind result := fun A B f m =>
  match m with
  | Ok a => f a
  | Undefined => Undefined
  | Throws => Throws
  | OutOfFuel => OutOfFuel
  end.

(** ** [struct Vec2] and [enum class Dir] *)
Record Vec2 : Type := mkVec2 { x : int; y : int }.

(** [Vec2::operator==] *)
Definition Vec2_eqb (a b : Vec2) : bool := Int.eqb (x a) (x b) && Int.eqb (y a) (y b).

Inductive Dir : Type := Up | Down | Left | Right.

Definition Dir_eqb (a b : Dir) : bool :=
  match a, b with
  | Up, Up | Down, Down | Left, Left | Right, Right => true
  | _, _ => false
  end.

(** ** [class Random]

    [std::mt19937] and [std::uniform_int_distribution] belong to the C++
    standard library.  The generator is kept abstract: a state type with
    a [draw] that honours the contract of the distribution, namely a
    result in [[lo, hi]] whenever [lo <= hi]. *)
Class RandomSource (R : Type) : Type := {
  draw : R -> int -> int -> int * R;
  draw_range : forall (g : R) (lo hi : int),
    Int.signed lo <= Int.signed hi ->
    Int.signed lo <= Int.signed (fst (draw g lo hi)) <= Int.signed hi
}.

(** [Random::nextInt]: the distribution requires [lo <= hi]. *)
Definition nextInt {R : Type} `{RandomSource R} (g : R) (lo hi : int) : result (int * R) :=
  if Int.leb lo hi then Ok (draw g lo hi) else Undefined.

(** A generator that replays a script of numbers, each one clamped into
    the requested range; once the script is used up it answers [lo]. *)
Definition clamp (lo hi v : int) : int :=
  if Int.ltb v lo then lo else if Int.ltb hi v then hi else v.

Definition scripted_draw (g : list int) (lo hi : int) : int * list int :=
  match g with
  | [] => (lo, [])
  | v :: g' => (clamp lo hi v, g')
  end.

Lemma scripted_draw_range (g : list int) (lo hi : int) :
  Int.signed lo <= Int.signed hi ->
  Int.signed lo <= Int.signed (fst (scripted_draw g lo hi)) <= Int.signed hi.
Proof.
  intros Hle. destruct g as [|v g']; simpl; [lia|].
  unfold clamp, Int.ltb.
  destruct (Z.ltb_spec (Int.signed v) (Int.signed lo)); [lia|].
  destruct (Z.ltb_spec (Int.signed hi) (Int.signed v)); lia.
Qed.

#[global] Instance ScriptedRandom : RandomSource (list int) :=
  {| draw := scripted_draw; draw_range := scripted_draw_range |}.

(** The frame [buildBuffer] draws: a [std::vector<std::string>]. *)
Abbreviation Buffer := (list (list ascii)).

(** ** [class Game] *)
Section GameModel.

Context {R : Type} `{RandomSource R}.

(** The data members.  [input_] is represented by the key that
    [pollKey] hands to [handleInput], and [render_] keeps no state of
    its own. *)
Record Game : Type := mkGame {
  w_ : int;
  h_ : int;
  rnd_ : R;
  snake_ : list Vec2;
  food_ : Vec2;
  dir_ : Dir;
  quit_ : bool;
  gameOver_ : bool;
  score_ : int;
  tickMs_ : int
}.

Definition with_rnd (st : Game) (g : R) : Game :=
  mkGame (w_ st) (h_ st) g (snake_ st) (food_ st) (dir_ st) (quit_ st)
         (gameOver_ st) (score_ st) (tickMs_ st).
Definition with_snake (st : Game) (s : list Vec2) : Game :=
  mkGame (w_ st) (h_ st) (rnd_ st) s (food_ st) (dir_ st) (quit_ st)
         (gameOver_ st) (score_ st) (tickMs_ st).
Definition with_food (st : Game) (p : Vec2) : Game :=
  mkGame (w_ st) (h_ st) (rnd_ st) (snake_ st) p (dir_ st) (quit_ st)
         (gameOver_ st) (score_ st) (tickMs_ st).
Definition with_dir (st : Game) (d : Dir) : Game :=
  mkGame (w_ st) (h_ st) (rnd_ st) (snake_ st) (food_ st) d (quit_ st)
         (gameOver_ st) (score_ st) (tickMs_ st).
Definition with_quit (st : Game) (b : bool) : Game :=
  mkGame (w_ st) (h_ st) (rnd_ st) (snake_ st) (food_ st) (dir_ st) b
         (gameOver_ st) (score_ st) (tickMs_ st).
Definition with_gameOver (st : Game) (b : bool) : Game :=
  mkGame (w_ st) (h_ st) (rnd_ st) (snake_ st) (food_ st) (dir_ st) (quit_ st)
         b (score_ st) (tickMs_ st).
Definition with_score (st : Game) (n : int) : Game :=
  mkGame (w_ st) (h_ st) (rnd_ st) (snake_ st) (food_ st) (dir_ st) (quit_ st)
         (gameOver_ st) n (tickMs_ st).
Definition with_tickMs (st : Game) (n : int) : Game :=
  mkGame (w_ st) (h_ st) (rnd_ st) (snake_ st) (food_ st) (dir_ st) (quit_ st)
         (gameOver_ st) (score_ st) n.

(** [Game::hitWall] *)
Definition hitWall (st : Game) (p : Vec2) : bool :=
  Int.leb (x p) (Int.repr 0)
  || Int.geb (x p) (Int.sub (w_ st) (Int.repr 1))
  || Int.leb (y p) (Int.repr 0)
  || Int.geb (y p) (Int.sub (h_ st) (Int.repr 1)).

(** The loop of [Game::hitSelf] over a deque: the first segment equal
    to [p] returns [true]. *)
Fixpoint hitSelf_loop (segs : list Vec2) (p : Vec2) : bool :=
  match segs with
  | [] => false
  | s :: rest => if Vec2_eqb s p then true else hitSelf_loop rest p
  end.

Definition hitSelf (st : Game) (p : Vec2) : bool := hitSelf_loop (snake_ st) p.

(** [Game::isOpposite] *)
Definition isOpposite (a b : Dir) : bool :=
  if Dir_eqb a Up && Dir_eqb b Down then true
  else if Dir_eqb a Down && Dir_eqb b Up then true
  else if Dir_eqb a Left && Dir_eqb b Right then true
  else if Dir_eqb a Right && Dir_eqb b Left then true
  else false.

(** The [for] loop inside [Game::spawnFood]: it runs over the whole
    deque and clears [ok] at every segment equal to [p]. *)
Definition spawnFood_free (segs : list Vec2) (p : Vec2) : bool :=
  fold_left (fun ok s => if Vec2_eqb s p then false else ok) segs true.

(** The [while (!ok)] loop of [Game::spawnFood]; one unit of fuel per
    iteration. *)
Fixpoint spawnFood_loop (fuel : nat) (w h : int) (segs : list Vec2) (g : R)
  : result (Vec2 * R) :=
  match fuel with
  | O => OutOfFuel
  | S fuel' =>
      '(px, g1) ← nextInt g (Int.repr 1) (Int.sub w (Int.repr 2));
      '(py, g2) ← nextInt g1 (Int.repr 1) (Int.sub h (Int.repr 2));
      let p := mkVec2 px py in
      if spawnFood_free segs p then Ok (p, g2)
      else spawnFood_loop fuel' w h segs g2
  end.

(** [Game::spawnFood] *)
Definition spawnFood (fuel : nat) (st : Game) : result Game :=
  '(p, g) ← spawnFood_loop fuel (w_ st) (h_ st) (snake_ st) (rnd_ st);
  Ok (with_food (with_rnd st g) p).

(** [Game::reset] *)
Definition reset (fuel : nat) (st : Game) : result Game :=
  let cx := Int.divs (w_ st) (Int.repr 2) in
  let cy := Int.divs (h_ st) (Int.repr 2) in
  let s0 : list Vec2 := [] in
  let s1 := s0 ++ [mkVec2 cx cy] in
  let s2 := s1 ++ [mkVec2 (Int.sub cx (Int.repr 1)) cy] in
  let s3 := s2 ++ [mkVec2 (Int.sub cx (Int.repr 2)) cy] in
  spawnFood fuel
    (mkGame (w_ st) (h_ st) (rnd_ st) s3 (food_ st) Right false false
            (Int.repr 0) (Int.repr 110)).

(** The constructor [Game(w, h)]: the default member initialisers
    followed by [reset()].  [g] is the freshly seeded generator. *)
Definition newGame (fuel : nat) (w h : int) (g : R) : result Game :=
  reset fuel
    (mkGame w h g [] (mkVec2 (Int.repr 0) (Int.repr 0)) Right false false
            (Int.repr 0) (Int.repr 110)).

(** [Game::handleInput], with [c] the character [pollKey] returned. *)
Definition handleInput (fuel : nat) (c : ascii) (st : Game) : result Game :=
  if Ascii.eqb c zero then Ok st
  else if Ascii.eqb c "q" || Ascii.eqb c "Q" then Ok (with_quit st true)
  else if (Ascii.eqb c "r" || Ascii.eqb c "R") && gameOver_ st then reset fuel st
  else
    let next := dir_ st in
    let next := if Ascii.eqb c "w" || Ascii.eqb c "W" then Up else next in
    let next := if Ascii.eqb c "s" || Ascii.eqb c "S" then Down else next in
    let next := if Ascii.eqb c "a" || Ascii.eqb c "A" then Left else next in
    let next := if Ascii.eqb c "d" || Ascii.eqb c "D" then Right else next in
    if negb (isOpposite (dir_ st) next) then Ok (with_dir st next) else Ok st.

(** The head computation of [Game::step]: a copy of the head moved by
    the unit offset of the direction. *)
Definition advance (d : Dir) (head : Vec2) : Vec2 :=
  let next := head in
  let next := if Dir_eqb d Up then mkVec2 (x next) (Int.sub (y next) (Int.repr 1)) else next in
  let next := if Dir_eqb d Down then mkVec2 (x next) (Int.add (y next) (Int.repr 1)) else next in
  let next := if Dir_eqb d Left then mkVec2 (Int.sub (x next) (Int.repr 1)) (y next) else next in
  let next := if Dir_eqb d Right then mkVec2 (Int.add (x next) (Int.repr 1)) (y next) else next in
  next.

(** [Game::step] *)
Definition step (fuel : nat) (st : Game) : result Game :=
  if gameOver_ st then Ok st
  else
    match snake_ st with
    | [] => Undefined
    | head :: _ =>
        let next := advance (dir_ st) head in
        if hitWall st next || hitSelf st next then Ok (with_gameOver st true)
        else
          let st1 := with_snake st (next :: snake_ st) in
          if Vec2_eqb next (food_ st1) then
            let st2 := with_score st1 (Int.add (score_ st1) (Int.repr 10)) in
            let st3 := with_tickMs st2 (Int.max (Int.repr 55) (Int.sub (tickMs_ st2) (Int.repr 2))) in
            spawnFood fuel st3
          else Ok (with_snake st1 (removelast (snake_ st1)))
    end.

(** *** Rendering: [Game::buildBuffer]

    The frame is a [std::vector<std::string>]: a list of rows, each a list
    of characters.  [operator[]] does no bounds check, so a write outside
    the container is undefined behaviour ([Buffer] is the type of the
    frame). *)

(** [buf[row][col] = ch], the indices converted to [size_t] as the
    subscript operators do: a negative [int] becomes an index beyond any
    container. *)
Definition buf_write (buf : Buffer) (row col : Z) (ch : ascii) : result Buffer :=
  if (0 <=? row) && (0 <=? col) then
    match buf !! Z.to_nat row with
    | Some line =>
        if Nat.ltb (Z.to_nat col) (length line)
        then Ok (<[Z.to_nat row := <[Z.to_nat col := ch]> line]> buf)
        else Undefined
    | None => Undefined
    end
  else Undefined.

(** [for (int i = start; i < start + n; i++) body], for a loop whose
    number of iterations is known when it is entered. *)
Fixpoint for_range (n : nat) (i : Z) (body : Z -> Buffer -> result Buffer)
    (buf : Buffer) : result Buffer :=
  match n with
  | O => Ok buf
  | S n' => buf' ← body i buf; for_range n' (i + 1) body buf'
  end.

(** The loop over the segments: ['O'] for the head, ['o'] for the rest. *)
Fixpoint draw_snake (segs : list Vec2) (i : nat) (buf : Buffer) : result Buffer :=
  match segs with
  | [] => Ok buf
  | p :: rest =>
      buf' ← buf_write buf (Int.signed (y p)) (Int.signed (x p))
                (if Nat.eqb i 0 then "O" else "o")%char;
      draw_snake rest (S i) buf'
  end.

(** The HUD loop: [i < hud.size() && i + 2 < w]. *)
Fixpoint draw_hud (hud : list ascii) (i : Z) (w : int) (buf : Buffer) : result Buffer :=
  match hud with
  | [] => Ok buf
  | c :: rest =>
      if i + 2 <? Int.signed w then
        buf' ← buf_write buf 0 (i + 2) c;
        draw_hud rest (i + 1) w buf'
      else Ok buf
  end.

(** The game-over loop: [i < msg.size() && start + i < w - 1]. *)
Fixpoint draw_msg (msg : list ascii) (i : Z) (start row : int) (w : int)
    (buf : Buffer) : result Buffer :=
  match msg with
  | [] => Ok buf
  | c :: rest =>
      let col := Int.add start (Int.repr i) in
      if Int.ltb col (Int.sub w (Int.repr 1)) then
        buf' ← buf_write buf (Int.signed row) (Int.signed col) c;
        draw_msg rest (i + 1) start row w buf'
      else Ok buf
  end.

(** [std::to_string(int)] *)
Definition to_string (n : int) : list ascii :=
  list_ascii_of_string (NilZero.string_of_int (Z.to_int (Int.signed n))).

Definition hud_text (st : Game) : list ascii :=
  list_ascii_of_string "Score: " ++ to_string (score_ st)
    ++ list_ascii_of_string "   WASD=move  Q=quit".

Definition gameOver_text : list ascii :=
  list_ascii_of_string "GAME OVER  (R=restart, Q=quit)".

(** [Game::buildBuffer].  Constructing a string or a vector from a
    negative [int] asks for more than [max_size()] elements and throws. *)
Definition buildBuffer (st : Game) : result Buffer :=
  if (Int.signed (w_ st) <? 0) || (Int.signed (h_ st) <? 0) then Throws
  else
    let w := Int.signed (w_ st) in
    let h := Int.signed (h_ st) in
    let buf : Buffer := replicate (Z.to_nat h) (replicate (Z.to_nat w) " "%char) in
    buf ← for_range (Z.to_nat w) 0
            (fun c b => b' ← buf_write b 0 c "#";
                        buf_write b' (Int.signed (Int.sub (h_ st) (Int.repr 1))) c "#") buf;
    buf ← for_range (Z.to_nat h) 0
            (fun r b => b' ← buf_write b r 0 "#";
                        buf_write b' r (Int.signed (Int.sub (w_ st) (Int.repr 1))) "#") buf;
    buf ← buf_write buf (Int.signed (y (food_ st))) (Int.signed (x (food_ st))) "*";
    buf ← draw_snake (snake_ st) 0 buf;
    buf ← draw_hud (hud_text st) 0 (w_ st) buf;
    if gameOver_ st then
      let start := Int.max (Int.repr 1)
                     (Int.divs (Int.sub (w_ st) (Int.repr (Z.of_nat (length gameOver_text))))
                               (Int.repr 2)) in
      let row := Int.divs (h_ st) (Int.repr 2) in
      draw_msg gameOver_text 0 start row (w_ st) buf
    else Ok buf.

End GameModel.

Arguments Game R : clear implicits.

(** ** [class Input], [class Renderer] and the main loop

    The terminal is represented by the bytes waiting on its input and by
    everything written to [std::cout].  Raw mode and the ANSI switch of
    the constructors are settings of the terminal and are not part of the
    model. *)

(** [Input::pollKey] of the POSIX build: with nothing to read the result
    is 0, otherwise one byte is read and returned. *)
Definition pollKey_posix (pending : list ascii) : ascii * list ascii :=
  match pending with
  | [] => (zero, [])
  | c :: rest => (c, rest)
  end.

(** [Input::pollKey] of the Windows build: a first byte 0 or 224
    announces an extended key; the code that follows, if it is there, is
    read and dropped and the result is 0. *)
Definition pollKey_windows (pending : list ascii) : ascii * list ascii :=
  match pending with
  | [] => (zero, [])
  | c :: rest =>
      if Ascii.eqb c zero || Ascii.eqb c "224"
      then (zero, match rest with [] => [] | _ :: rest' => rest' end)
      else (c, rest)
  end.

(** What the two builds differ in: the key poll, and how many periods of
    [std::chrono::steady_clock] make a millisecond. *)
Record Host : Type := mkHost {
  pollKey : list ascii -> ascii * list ascii;
  clock_per_ms : Z
}.

(** [Renderer::clearScreen] writes ESC [ 2 J ESC [ H. *)
Definition Renderer_clearScreen (out : list ascii) : list ascii :=
  out ++ ["027"; "["; "2"; "J"; "027"; "["; "H"]%char.

(** [Renderer::draw]: the clear sequence, then every line followed by a
    newline. *)
Definition Renderer_draw (buf : Buffer) (out : list ascii) : list ascii :=
  fold_left (fun o line => o ++ line ++ ["010"%char]) buf (Renderer_clearScreen out).

Section MainLoop.

Context {R : Type} `{RandomSource R}.

(** The program between two iterations of the loop of [run]: the game,
    the bytes waiting on the terminal, the time of the last step and the
    output so far. *)
Record World : Type := mkWorld {
  game : Game R;
  pending_keys : list ascii;
  last_step : Z;
  output : list ascii
}.

(** What the outside contributes to one iteration: the bytes typed since
    the previous poll and the reading of the clock. *)
Record Moment : Type := mkMoment {
  typed : list ascii;
  clock : Z
}.

(** [Game::drawFrame] *)
Definition drawFrame (st : Game R) (o : list ascii) : result (list ascii) :=
  buf ← buildBuffer st; Ok (Renderer_draw buf o).

(** One iteration of the loop of [Game::run]: poll and handle a key, take
    a step if at least [tickMs_] milliseconds have passed since the last
    one, draw the frame. *)
Definition loop_body (host : Host) (fuel : nat) (m : Moment) (wd : World) : result World :=
  let '(c, pending) := pollKey host (pending_keys wd ++ typed m) in
  st1 ← handleInput fuel c (game wd);
  let dt := Z.quot (clock m - last_step wd) (clock_per_ms host) in
  '(st2, last') ← (if dt >=? Int.signed (tickMs_ st1)
                   then st' ← step fuel st1; Ok (st', clock m)
                   else Ok (st1, last_step wd));
  o ← drawFrame st2 (output wd);
  Ok (mkWorld st2 pending last' o).

(** The loop of [Game::run]: it ends with 0 once [quit_] is set, and is
    still running when the recorded moments are used up. *)
Fixpoint run_loop (host : Host) (fuel : nat) (ms : list Moment) (wd : World)
  : result (int * World) :=
  if quit_ (game wd) then Ok (Int.repr 0, wd)
  else
    match ms with
    | [] => OutOfFuel
    | m :: ms' => wd' ← loop_body host fuel m wd; run_loop host fuel ms' wd'
    end.

(** [Game::run], entered at clock reading [start]. *)
Definition run (host : Host) (fuel : nat) (start : Z) (ms : list Moment)
    (st : Game R) (pending : list ascii) (o : list ascii) : result (int * World) :=
  run_loop host fuel ms (mkWorld st pending start o).

(** [main]: a 50 by 22 game, run. *)
Definition main (host : Host) (fuel : nat) (g : R) (start : Z) (ms : list Moment)
    (pending : list ascii) : result (int * World) :=
  st ← newGame fuel (Int.repr 50) (Int.repr 22) g;
  run host fuel start ms st pending [].

(** [Game::handleInput] as the loop calls it, on the bytes waiting. *)
Definition pollInput (host : Host) (fuel : nat) (st : Game R) (pending : list ascii)
  : result (Game R * list ascii) :=
  let '(c, pending') := pollKey host pending in
  st' ← handleInput fuel c st; Ok (st', pending').

(** [n] calls of [Game::handleInput] in a row. *)
Fixpoint pollInputs (host : Host) (fuel : nat) (n : nat) (st : Game R)
    (pending : list ascii) : result (Game R * list ascii) :=
  match n with
  | O => Ok (st, pending)
  | S n' =>
      '(st', pending') ← pollInput host fuel st pending;
      pollInputs host fuel n' st' pending'
  end.

End MainLoop.

Arguments World R : clear implicits.

(** ** Vocabulary of the specification *)

(** The unit offset of a direction, as a pair of mathematical integers. *)
Definition offset (d : Dir) : Z * Z :=
  match d with
  | Up => (0, -1)
  | Down => (0, 1)
  | Left => (-1, 0)
  | Right => (1, 0)
  end.

(** The exact opposite of a direction. *)
Definition opposite (d : Dir) : Dir :=
  match d with
  | Up => Down
  | Down => Up
  | Left => Right
  | Right => Left
  end.

(** The keys that ask for a direction. *)
Definition keys_of (d : Dir) : list ascii :=
  match d with
  | Up => ["w"; "W"]
  | Down => ["s"; "S"]
  | Left => ["a"; "A"]
  | Right => ["d"; "D"]
  end%char.

(** The coordinates of a position as mathematical integers. *)
Definition coords (p : Vec2) : Z * Z := (Int.signed (x p), Int.signed (y p)).

(** The body [reset] builds: the head at the centre and two segments to
    its left. *)
Definition initial_snake (w h : int) : list Vec2 :=
  let cx := Int.divs w (Int.repr 2) in
  let cy := Int.divs h (Int.repr 2) in
  [mkVec2 cx cy; mkVec2 (Int.sub cx (Int.repr 1)) cy; mkVec2 (Int.sub cx (Int.repr 2)) cy].

Section GameSpec.

Context {R : Type} `{RandomSource R}.

(** A cell strictly inside the one-cell border of the grid. *)
Definition interior (st : Game R) (p : Vec2) : Prop :=
  1 <= Int.signed (x p) <= Int.signed (w_ st) - 2
  /\ 1 <= Int.signed (y p) <= Int.signed (h_ st) - 2.

(** A cell on the border of the grid. *)
Definition touchesWall (st : Game R) (p : Vec2) : Prop :=
  Int.signed (x p) = 0 \/ Int.signed (x p) = Int.signed (w_ st) - 1
  \/ Int.signed (y p) = 0 \/ Int.signed (y p) = Int.signed (h_ st) - 1.

(** The states the program can be in: the one the constructor builds,
    and those that [step] and [handleInput] lead to from there. *)
Inductive reachable (w h : int) : Game R -> Prop :=
| reachable_new (fuel : nat) (g : R) (st : Game R) :
    newGame fuel w h g = Ok st -> reachable w h st
| reachable_step (fuel : nat) (st st' : Game R) :
    reachable w h st -> step fuel st = Ok st' -> reachable w h st'
| reachable_input (fuel : nat) (c : ascii) (st st' : Game R) :
    reachable w h st -> handleInput fuel c st = Ok st' -> reachable w h st'.

(** The frame has [h] rows of [w] characters. *)
Definition buf_dims (h w : nat) (buf : Buffer) : Prop :=
  length buf = h /\ Forall (fun line => length line = w) buf.

(** A call that returns a frame of [h] rows of [w] characters. *)
Definition returns_frame (h w : nat) (r : result Buffer) : Prop :=
  exists buf, r = Ok buf /\ buf_dims h w buf.

(** What every reachable state of a [w] by [h] game satisfies. *)
Definition game_inv (w h : int) (st : Game R) : Prop :=
  w_ st = w /\ h_ st = h
  /\ NoDup (snake_ st)
  /\ (3 <= length (snake_ st))%nat
  /\ score_ st = Int.repr (10 * (Z.of_nat (length (snake_ st)) - 3))
  /\ 55 <= Int.signed (tickMs_ st) <= 110.

(** The snake and the food are strictly inside the walls. *)
Definition inside_inv (st : Game R) : Prop :=
  Forall (interior st) (snake_ st) /\ interior st (food_ st).

(** The cell one iteration of the food loop proposes, and the generator
    it leaves behind. *)
Definition try_once (w h : int) (g : R) : Vec2 * R :=
  let '(px, g1) := draw g (Int.repr 1) (Int.sub w (Int.repr 2)) in
  let '(py, g2) := draw g1 (Int.repr 1) (Int.sub h (Int.repr 2)) in
  (mkVec2 px py, g2).

(** The generator after [n] iterations of the food loop. *)
Fixpoint after_tries (n : nat) (w h : int) (g : R) : R :=
  match n with
  | O => g
  | S n' => after_tries n' w h (snd (try_once w h g))
  end.

(** The grid is large enough for the distribution's ranges [1, w - 2]
    and [1, h - 2] not to be empty. *)
Definition grid_ok (w h : int) : Prop :=
  Int.leb (Int.repr 1) (Int.sub w (Int.repr 2)) = true
  /\ Int.leb (Int.repr 1) (Int.sub h (Int.repr 2)) = true.

(** The cell the food loop proposes in its iteration number [n]
    (counted from 0), and the generator that iteration leaves behind. *)
Definition nth_proposal (n : nat) (w h : int) (g : R) : Vec2 * R :=
  try_once w h (after_tries n w h g).

(** The first [n] proposals of the generator lie on [segs] and the next
    one does not: the loop's condition [ok] first holds in iteration [n]. *)
Definition first_free (n : nat) (w h : int) (segs : list Vec2) (g : R) : Prop :=
  (forall k, (k < n)%nat -> fst (nth_proposal k w h g) ∈ segs)
  /\ fst (nth_proposal n w h g) ∉ segs.

(** A call that returned or is still looping: it ran into nothing
    undefined and threw nothing. *)
Definition defined {A : Type} (r : result A) : Prop :=
  (exists a, r = Ok a) \/ r = OutOfFuel.

(** A cell of the interior, numbered row by row. *)
Definition cell_index (st : Game R) (p : Vec2) : Z :=
  (Int.signed (y p) - 1) * (Int.signed (w_ st) - 2) + (Int.signed (x p) - 1).

(** The four ways in which [step] returns. *)
Inductive step_outcome (fuel : nat) (st st' : Game R) : Prop :=
| step_idle :
    gameOver_ st = true -> st' = st -> step_outcome fuel st st'
| step_crash (head : Vec2) (rest : list Vec2) :
    gameOver_ st = false -> snake_ st = head :: rest ->
    hitWall st (advance (dir_ st) head) = true
    \/ advance (dir_ st) head ∈ snake_ st ->
    st' = with_gameOver st true -> step_outcome fuel st st'
| step_eat (head : Vec2) (rest : list Vec2) (p : Vec2) (g' : R) :
    gameOver_ st = false -> snake_ st = head :: rest ->
    hitWall st (advance (dir_ st) head) = false ->
    advance (dir_ st) head ∉ snake_ st ->
    advance (dir_ st) head = food_ st ->
    spawnFood_loop fuel (w_ st) (h_ st) (advance (dir_ st) head :: snake_ st) (rnd_ st)
    = Ok (p, g') ->
    st' = mkGame (w_ st) (h_ st) g' (advance (dir_ st) head :: snake_ st) p (dir_ st)
            (quit_ st) false (Int.add (score_ st) (Int.repr 10))
            (Int.max (Int.repr 55) (Int.sub (tickMs_ st) (Int.repr 2))) ->
    step_outcome fuel st st'
| step_move (head : Vec2) (rest : list Vec2) :
    gameOver_ st = false -> snake_ st = head :: rest ->
    hitWall st (advance (dir_ st) head) = false ->
    advance (dir_ st) head ∉ snake_ st ->
    advance (dir_ st) head <> food_ st ->
    st' = with_snake st (advance (dir_ st) head :: removelast (snake_ st)) ->
    step_outcome fuel st st'.

(** Two cells next to each other in a row or in a column. *)
Definition neighbours (a b : Vec2) : Prop :=
  Z.abs (Int.signed (x a) - Int.signed (x b))
  + Z.abs (Int.signed (y a) - Int.signed (y b)) = 1.

(** Each segment is the segment behind it moved by one step. *)
Fixpoint chain (segs : list Vec2) : Prop :=
  match segs with
  | a :: (b :: _) as rest => (exists d, a = advance d b) /\ chain rest
  | _ => True
  end.

(** What the main loop feeds the game: a tick of the clock or a key. *)
Inductive event : Type :=
| Tick
| Key (c : ascii).

Definition apply_event (fuel : nat) (e : event) (st : Game R) : result (Game R) :=
  match e with
  | Tick => step fuel st
  | Key c => handleInput fuel c st
  end.

(** A sequence of ticks and keys, applied in order. *)
Fixpoint play (fuel : nat) (evs : list event) (st : Game R) : result (Game R) :=
  match evs with
  | [] => Ok st
  | e :: evs' => st' ← apply_event fuel e st; play fuel evs' st'
  end.

(** The keys [handleInput] reacts to. *)
Definition known_keys : list ascii :=
  ["q"; "Q"; "r"; "R"; "w"; "W"; "s"; "S"; "a"; "A"; "d"; "D"]%char.

(** The character a frame shows at row [r], column [c]. *)
Definition cell (buf : Buffer) (r c : Z) : option ascii :=
  if (0 <=? r) && (0 <=? c)
  then buf !! Z.to_nat r ≫= fun line : list ascii => line !! Z.to_nat c
  else None.

(** A sequence of writes [buf[r][c] = ch], performed in order. *)
Fixpoint apply_writes (ws : list (Z * Z * ascii)) (buf : Buffer) : result Buffer :=
  match ws with
  | [] => Ok buf
  | (r, c, ch) :: ws' => buf' ← buf_write buf r c ch; apply_writes ws' buf'
  end.

(** The character the last write at row [r], column [c] leaves there. *)
Fixpoint last_write (ws : list (Z * Z * ascii)) (r c : Z) : option ascii :=
  match ws with
  | [] => None
  | (r', c', ch) :: ws' =>
      match last_write ws' r c with
      | Some later => Some later
      | None => if decide (r' = r /\ c' = c) then Some ch else None
      end
  end.

(** The writes of the loops of [buildBuffer]. *)
Fixpoint snake_writes (segs : list Vec2) (i : nat) : list (Z * Z * ascii) :=
  match segs with
  | [] => []
  | p :: rest =>
      (Int.signed (y p), Int.signed (x p), (if Nat.eqb i 0 then "O" else "o")%char)
      :: snake_writes rest (S i)
  end.

Fixpoint hud_writes (hud : list ascii) (i : Z) (w : int) : list (Z * Z * ascii) :=
  match hud with
  | [] => []
  | c :: rest =>
      if i + 2 <? Int.signed w then (0, i + 2, c) :: hud_writes rest (i + 1) w else []
  end.

Fixpoint msg_writes (msg : list ascii) (i : Z) (start row w : int)
  : list (Z * Z * ascii) :=
  match msg with
  | [] => []
  | c :: rest =>
      let col := Int.add start (Int.repr i) in
      if Int.ltb col (Int.sub w (Int.repr 1))
      then (Int.signed row, Int.signed col, c) :: msg_writes rest (i + 1) start row w
      else []
  end.

(** The column the game-over message starts in, and its row. *)
Definition msg_start (w : int) : int :=
  Int.max (Int.repr 1)
    (Int.divs (Int.sub w (Int.repr (Z.of_nat (length gameOver_text)))) (Int.repr 2)).

Definition msg_row (h : int) : int := Int.divs h (Int.repr 2).

(** All the writes of [buildBuffer], in the order of the source. *)
Definition frame_writes (st : Game R) : list (Z * Z * ascii) :=
  (seqZ 0 (Int.signed (w_ st)) ≫= fun c =>
     [(0, c, "#"%char); (Int.signed (Int.sub (h_ st) (Int.repr 1)), c, "#"%char)])
  ++ (seqZ 0 (Int.signed (h_ st)) ≫= fun r =>
        [(r, 0, "#"%char); (r, Int.signed (Int.sub (w_ st) (Int.repr 1)), "#"%char)])
  ++ [(Int.signed (y (food_ st)), Int.signed (x (food_ st)), "*"%char)]
  ++ snake_writes (snake_ st) 0
  ++ hud_writes (hud_text st) 0 (w_ st)
  ++ (if gameOver_ st
      then msg_writes gameOver_text 0 (msg_start (w_ st)) (msg_row (h_ st)) (w_ st)
      else []).

End GameSpec.

(** ** The program's 50 by 22 game, on a scripted generator *)

Definition pos (a b : Z) : Vec2 := mkVec2 (Int.repr a) (Int.repr b).

(** The state [Game(50, 22)] starts in, up to the food and the generator. *)
Definition game_50x22 (food : Vec2) (g : list int) : Game (list int) :=
  mkGame (Int.repr 50) (Int.repr 22) g [pos 25 11; pos 24 11; pos 23 11] food
         Right false false (Int.repr 0) (Int.repr 110).

(** The same game after eating the food at (26, 11). *)
Definition game_50x22_fed (food : Vec2) (g : list int) : Game (list int) :=
  mkGame (Int.repr 50) (Int.repr 22) g [pos 26 11; pos 25 11; pos 24 11; pos 23 11]
         food Right false false (Int.repr 10) (Int.repr 108).

(** A snake about to run into the right wall. *)
Definition game_at_wall : Game (list int) :=
  mkGame (Int.repr 50) (Int.repr 22) [] [pos 48 11; pos 47 11; pos 46 11] (pos 30 5)
         Right false false (Int.repr 0) (Int.repr 110).

(** A finished game. *)
Definition game_over : Game (list int) :=
  mkGame (Int.repr 50) (Int.repr 22) [Int.repr 30; Int.repr 5]
         [pos 48 11; pos 47 11; pos 46 11; pos 45 11] (pos 7 3)
         Right false true (Int.repr 10) (Int.repr 108).

(** The state [Game(6, 3)] starts in: the snake on three of the four
    interior cells, the food on the fourth. *)
Definition game_6x3 {R : Type} (g : R) : Game R :=
  mkGame (Int.repr 6) (Int.repr 3) g [pos 3 1; pos 2 1; pos 1 1] (pos 4 1)
         Right false false (Int.repr 0) (Int.repr 110).

(** ** Basic facts *)

Lemma Vec2_eqb_eq (a b : Vec2) : Vec2_eqb a b = true <-> a = b.
Proof.
  unfold Vec2_eqb. rewrite andb_true_iff, !Int.eqb_eq.
  destruct a, b; simpl. split; [intros [-> ->]; reflexivity | intros E; inversion E; auto].
Qed.

Lemma Vec2_eqb_neq (a b : Vec2) : Vec2_eqb a b = false <-> a <> b.
Proof.
  rewrite <- Vec2_eqb_eq. destruct (Vec2_eqb a b); split; congruence.
Qed.

#[global] Instance Vec2_eq_dec : EqDecision Vec2.
Proof.
  intros a b. destruct (Vec2_eqb a b) eqn:E.
  - left. now apply Vec2_eqb_eq.
  - right. now apply Vec2_eqb_neq.
Defined.

Lemma coords_inj (a b : Vec2) : coords a = coords b -> a = b.
Proof.
  destruct a, b; unfold coords; simpl; intros E; inversion E.
  f_equal; now apply Int.signed_inj.
Qed.

Lemma hitSelf_loop_elem (segs : list Vec2) (p : Vec2) :
  hitSelf_loop segs p = true <-> p ∈ segs.
Proof.
  induction segs as [|s rest IH]; simpl.
  - split; [discriminate | intros E; inversion E].
  - rewrite elem_of_cons. destruct (Vec2_eqb s p) eqn:E.
    + apply Vec2_eqb_eq in E. subst. tauto.
    + apply Vec2_eqb_neq in E. rewrite IH. split; [tauto | intros [->|?]; [contradiction | assumption]].
Qed.

Lemma hitSelf_loop_not_elem (segs : list Vec2) (p : Vec2) :
  hitSelf_loop segs p = false <-> p ∉ segs.
Proof.
  rewrite <- hitSelf_loop_elem. destruct (hitSelf_loop segs p); split; congruence.
Qed.

Lemma spawnFood_free_fold (segs : list Vec2) (p : Vec2) (b : bool) :
  fold_left (fun ok s => if Vec2_eqb s p then false else ok) segs b
  = b && negb (hitSelf_loop segs p).
Proof.
  revert b. induction segs as [|s rest IH]; intros b; simpl.
  - now rewrite andb_true_r.
  - rewrite IH. destruct (Vec2_eqb s p); simpl; [now rewrite andb_false_r | reflexivity].
Qed.

Lemma spawnFood_free_not_elem (segs : list Vec2) (p : Vec2) :
  spawnFood_free segs p = true <-> p ∉ segs.
Proof.
  unfold spawnFood_free. rewrite spawnFood_free_fold. simpl.
  rewrite negb_true_iff. apply hitSelf_loop_not_elem.
Qed.

Lemma isOpposite_opposite (a b : Dir) : isOpposite a b = true <-> b = opposite a.
Proof. destruct a, b; cbv; split; congruence. Qed.

Lemma NoDup_removelast {A : Type} (l : list A) : NoDup l -> NoDup (removelast l).
Proof.
  induction l as [|a l IH]; simpl; [auto|].
  intros Hnd. pose proof (NoDup_cons_1_1 _ _ Hnd) as Hnot.
  pose proof (NoDup_cons_1_2 _ _ Hnd) as Hl.
  destruct l as [|b l']; [constructor|].
  apply NoDup_cons_2; [|auto].
  intros Hin. apply Hnot. clear - Hin.
  revert b Hin. induction l' as [|c l'' IH']; intros b Hin; simpl in *.
  - inversion Hin.
  - apply elem_of_cons in Hin as [->|Hin]; [left | right; auto].
Qed.

Lemma elem_of_removelast {A : Type} (l : list A) (a : A) : a ∈ removelast l -> a ∈ l.
Proof.
  induction l as [|b l IH]; simpl; [auto|].
  destruct l as [|c l']; [intros E; inversion E|].
  intros E. apply elem_of_cons in E as [->|E]; [left | right; auto].
Qed.

Lemma length_removelast_cons {A : Type} (a : A) (l : list A) :
  length (removelast (a :: l)) = length l.
Proof.
  rewrite removelast_firstn_len, length_take. simpl. lia.
Qed.

(** ** The operations of [Game] *)
Section GameFacts.

Context {R : Type} `{RandomSource R}.

Implicit Types (st : Game R) (p : Vec2) (d : Dir).

Ltac unfold_int :=
  unfold Int.leb, Int.geb, Int.ltb, Int.sub, Int.add, Int.divs, Int.max in *.

Lemma signed_small (z : Z) :
  -2147483648 <= z <= 2147483647 -> Int.signed (Int.repr z) = z.
Proof. intros Hz. apply Int.signed_repr. unfold Int.min_signed, Int.max_signed. lia. Qed.

Ltac int_simpl :=
  repeat match goal with
  | |- context [Int.signed (Int.repr ?z)] => rewrite (signed_small z) by lia
  end.

Lemma hitWall_interior st p : interior st p -> hitWall st p = false.
Proof.
  intros [[Hx1 Hx2] [Hy1 Hy2]]. unfold hitWall. unfold_int.
  pose proof (Int.signed_range (w_ st)). pose proof (Int.signed_range (h_ st)).
  unfold Int.min_signed, Int.max_signed in *.
  int_simpl.
  rewrite !orb_false_iff, !Z.geb_leb, !Z.leb_gt. lia.
Qed.

Lemma touchesWall_hitWall st p : touchesWall st p -> hitWall st p = true.
Proof.
  unfold touchesWall, hitWall. unfold_int.
  pose proof (Int.signed_range (w_ st)). pose proof (Int.signed_range (h_ st)).
  pose proof (Int.signed_range (x p)). pose proof (Int.signed_range (y p)).
  unfold Int.min_signed, Int.max_signed in *. intros Ht.
  rewrite !orb_true_iff, !Z.leb_le, !Z.geb_leb, !Z.leb_le.
  int_simpl.
  destruct Ht as [Ht|[Ht|[Ht|Ht]]]; int_simpl.
  - left; left; left. lia.
  - left; left; right. lia.
  - left; right. lia.
  - right. lia.
Qed.

Lemma hitWall_false_interior st p :
  Int.min_signed < Int.signed (w_ st) -> Int.min_signed < Int.signed (h_ st) ->
  hitWall st p = false -> interior st p.
Proof.
  unfold hitWall, interior. unfold_int.
  pose proof (Int.signed_range (w_ st)). pose proof (Int.signed_range (h_ st)).
  unfold Int.min_signed, Int.max_signed in *. intros Hw Hh.
  int_simpl.
  rewrite !orb_false_iff, !Z.leb_gt, !Z.geb_leb, !Z.leb_gt. lia.
Qed.

(** [advance] adds the unit offset, modulo the width of an [int]. *)
Lemma advance_repr d (head : Vec2) :
  advance d head
  = mkVec2 (Int.repr (Int.signed (x head) + fst (offset d)))
           (Int.repr (Int.signed (y head) + snd (offset d))).
Proof.
  destruct head as [hx hy].
  destruct d; cbn [advance Dir_eqb offset fst snd x y]; unfold_int;
    rewrite ?signed_small by lia; rewrite ?Z.add_0_r, ?Int.repr_signed;
    try reflexivity; f_equal.
Qed.

Lemma wrap_unit (a k : Z) :
  -2147483648 <= a <= 2147483647 -> -1 <= k <= 1 ->
  1 <= Int.wrap (a + k) <= 2147483645 -> Int.wrap (a + k) = a + k.
Proof.
  intros Ha Hk Hw.
  destruct (Z_le_gt_dec (a + k) 2147483647) as [Hle|Hgt].
  - destruct (Z_le_gt_dec (-2147483648) (a + k)) as [Hge|Hlt].
    + apply Int.wrap_small. unfold Int.min_signed, Int.max_signed. lia.
    + assert (E : a + k = -2147483649) by lia. rewrite E in Hw.
      change (Int.wrap (-2147483649)) with 2147483647 in Hw. lia.
  - assert (E : a + k = 2147483648) by lia. rewrite E in Hw.
    change (Int.wrap 2147483648) with (-2147483648) in Hw. lia.
Qed.

(** Inside the grid the addition does not wrap: the next head is the head
    plus the unit offset of the direction. *)
Lemma advance_interior st d (head : Vec2) :
  interior st (advance d head) ->
  coords (advance d head)
  = (Int.signed (x head) + fst (offset d), Int.signed (y head) + snd (offset d)).
Proof.
  rewrite advance_repr. unfold interior, coords. cbn [x y Int.signed Int.repr].
  pose proof (Int.signed_range (w_ st)). pose proof (Int.signed_range (h_ st)).
  pose proof (Int.signed_range (x head)). pose proof (Int.signed_range (y head)).
  unfold Int.min_signed, Int.max_signed in *. intros [Hx Hy].
  assert (Hk1 : -1 <= fst (offset d) <= 1) by (destruct d; simpl; lia).
  assert (Hk2 : -1 <= snd (offset d) <= 1) by (destruct d; simpl; lia).
  rewrite !wrap_unit by lia. reflexivity.
Qed.

(** *** [step] *)

(** C9: when [gameOver_] is set, [step] returns at once and the state,
    every field of it, is the one it was called on. *)
Theorem step_gameOver_noop fuel st :
  gameOver_ st = true -> step fuel st = Ok st.
Proof. intros Hover. unfold step. now rewrite Hover. Qed.

(** C1: in a Playing state whose next head (the head moved by the unit
    offset of the direction) is strictly inside the walls, on no body
    segment and not on the food, [step] pushes the next head to the front
    and pops the tail; nothing but [snake_] changes, and the length of the
    body stays the same. *)
Theorem step_moves_forward fuel st (head : Vec2) (rest : list Vec2) :
  gameOver_ st = false ->
  snake_ st = head :: rest ->
  interior st (advance (dir_ st) head) ->
  advance (dir_ st) head ∉ snake_ st ->
  advance (dir_ st) head <> food_ st ->
  coords (advance (dir_ st) head)
  = (Int.signed (x head) + fst (offset (dir_ st)),
     Int.signed (y head) + snd (offset (dir_ st)))
  /\ step fuel st
     = Ok (mkGame (w_ st) (h_ st) (rnd_ st)
             (advance (dir_ st) head :: removelast (snake_ st))
             (food_ st) (dir_ st) (quit_ st) false (score_ st) (tickMs_ st))
  /\ length (advance (dir_ st) head :: removelast (snake_ st)) = length (snake_ st).
Proof.
  intros Hplay Hsnake Hin Hfree Hfood.
  split; [now apply (advance_interior st)|]. split.
  - unfold step. rewrite Hplay, Hsnake.
    rewrite (hitWall_interior st _ Hin).
    unfold hitSelf. rewrite Hsnake.
    rewrite Hsnake in Hfree. apply hitSelf_loop_not_elem in Hfree. rewrite Hfree.
    cbn [orb with_snake food_ snake_].
    apply Vec2_eqb_neq in Hfood. rewrite Hfood.
    unfold with_snake. cbn. now rewrite Hplay.
  - rewrite Hsnake. cbn [length]. now rewrite length_removelast_cons.
Qed.

(** C3: in a Playing state whose next head touches a wall or lies on a
    body segment (the tail included), [step] sets [gameOver_] and changes
    nothing else. *)
Theorem step_collision_game_over fuel st (head : Vec2) (rest : list Vec2) :
  gameOver_ st = false ->
  snake_ st = head :: rest ->
  touchesWall st (advance (dir_ st) head) \/ advance (dir_ st) head ∈ snake_ st ->
  step fuel st
  = Ok (mkGame (w_ st) (h_ st) (rnd_ st) (snake_ st) (food_ st) (dir_ st)
          (quit_ st) true (score_ st) (tickMs_ st)).
Proof.
  intros Hplay Hsnake Hhit. unfold step. rewrite Hplay, Hsnake.
  assert (E : hitWall st (advance (dir_ st) head)
              || hitSelf st (advance (dir_ st) head) = true).
  { apply orb_true_iff. destruct Hhit as [Hwall|Hself].
    - left. now apply touchesWall_hitWall.
    - right. unfold hitSelf. now apply hitSelf_loop_elem. }
  rewrite E. unfold with_gameOver. now rewrite Hsnake.
Qed.

(** *** [spawnFood] *)

Lemma nextInt_Ok (g g' : R) (lo hi v : int) :
  nextInt g lo hi = Ok (v, g') ->
  Int.signed lo <= Int.signed v <= Int.signed hi.
Proof.
  unfold nextInt, Int.leb. destruct (Z.leb_spec (Int.signed lo) (Int.signed hi)) as [Hle|Hgt];
    [|discriminate].
  intros E. inversion E as [E']. pose proof (draw_range g lo hi Hle) as Hr.
  now rewrite E' in Hr.
Qed.

Lemma spawnFood_loop_Ok fuel (w h : int) (segs : list Vec2) (g g' : R) p :
  spawnFood_loop fuel w h segs g = Ok (p, g') ->
  1 <= Int.signed (x p) <= Int.signed (Int.sub w (Int.repr 2))
  /\ 1 <= Int.signed (y p) <= Int.signed (Int.sub h (Int.repr 2))
  /\ p ∉ segs.
Proof.
  revert g. induction fuel as [|fuel IH]; intros g; simpl; [discriminate|].
  destruct (nextInt g (Int.repr 1) (Int.sub w (Int.repr 2))) as [[px g1]| | |] eqn:E1;
    simpl; try discriminate.
  destruct (nextInt g1 (Int.repr 1) (Int.sub h (Int.repr 2))) as [[py g2]| | |] eqn:E2;
    simpl; try discriminate.
  destruct (spawnFood_free segs (mkVec2 px py)) eqn:Efree.
  - intros E. inversion E; subst. simpl.
    apply nextInt_Ok in E1. apply nextInt_Ok in E2.
    rewrite (signed_small 1) in E1 by lia. rewrite (signed_small 1) in E2 by lia.
    split; [exact E1|]. split; [exact E2|]. now apply spawnFood_free_not_elem.
  - apply IH.
Qed.

(** More fuel never changes an answer already reached. *)
Lemma spawnFood_loop_more_fuel fuel fuel' (w h : int) (segs : list Vec2) (g : R) r :
  (fuel <= fuel')%nat ->
  spawnFood_loop fuel w h segs g = Ok r ->
  spawnFood_loop fuel' w h segs g = Ok r.
Proof.
  revert fuel' g. induction fuel as [|fuel IH]; intros fuel' g Hle; simpl; [discriminate|].
  destruct fuel' as [|fuel']; [lia|]. simpl.
  destruct (nextInt g (Int.repr 1) (Int.sub w (Int.repr 2))) as [[px g1]| | |];
    simpl; try discriminate.
  destruct (nextInt g1 (Int.repr 1) (Int.sub h (Int.repr 2))) as [[py g2]| | |];
    simpl; try discriminate.
  destruct (spawnFood_free segs (mkVec2 px py)); [auto|].
  apply IH. lia.
Qed.

Lemma sub_two_small (w : int) :
  Int.min_signed + 2 <= Int.signed w ->
  Int.signed (Int.sub w (Int.repr 2)) = Int.signed w - 2.
Proof.
  intros Hw. pose proof (Int.signed_range w). unfold Int.sub.
  unfold Int.min_signed, Int.max_signed in *. int_simpl. reflexivity.
Qed.

(** C6: whenever [spawnFood] returns, on a grid whose [w_ - 2] and
    [h_ - 2] do not overflow, the food it assigned is an interior cell and
    differs from every segment of the snake; only [food_] and the
    generator have changed. *)
Theorem spawnFood_interior_free fuel st st' :
  Int.min_signed + 2 <= Int.signed (w_ st) ->
  Int.min_signed + 2 <= Int.signed (h_ st) ->
  spawnFood fuel st = Ok st' ->
  interior st' (food_ st')
  /\ (food_ st' ∉ snake_ st')
  /\ st' = mkGame (w_ st) (h_ st) (rnd_ st') (snake_ st) (food_ st') (dir_ st)
             (quit_ st) (gameOver_ st) (score_ st) (tickMs_ st).
Proof.
  intros Hw Hh. unfold spawnFood.
  destruct (spawnFood_loop fuel (w_ st) (h_ st) (snake_ st) (rnd_ st))
    as [[p g]| | |] eqn:E; simpl; try discriminate.
  intros E'. inversion E'; subst st'. clear E'.
  apply spawnFood_loop_Ok in E as (Hx & Hy & Hfree).
  rewrite sub_two_small in Hx by assumption.
  rewrite sub_two_small in Hy by assumption.
  unfold interior. simpl. auto.
Qed.

(** *** [handleInput] *)

Lemma with_dir_same st : with_dir st (dir_ st) = st.
Proof. now destruct st. Qed.

(** C4: a direction key (lower or upper case) that asks for the exact
    opposite of the current direction leaves the state, and so the
    direction, as it is; any other direction key sets the direction to the
    one the key stands for and changes nothing else. *)
Theorem handleInput_direction fuel st (c : ascii) (d' : Dir) :
  c ∈ keys_of d' ->
  (d' = opposite (dir_ st) -> handleInput fuel c st = Ok st)
  /\ (d' <> opposite (dir_ st) ->
      handleInput fuel c st
      = Ok (mkGame (w_ st) (h_ st) (rnd_ st) (snake_ st) (food_ st) d'
              (quit_ st) (gameOver_ st) (score_ st) (tickMs_ st))).
Proof.
  intros Hkey.
  assert (E : handleInput fuel c st
              = if negb (isOpposite (dir_ st) d') then Ok (with_dir st d') else Ok st).
  { destruct d'; cbn [keys_of] in Hkey;
      repeat (apply elem_of_cons in Hkey as [->|Hkey]); try (now inversion Hkey);
      reflexivity. }
  rewrite E. split; intros Hd.
  - apply isOpposite_opposite in Hd. now rewrite Hd.
  - destruct (isOpposite (dir_ st) d') eqn:Eo.
    + apply isOpposite_opposite in Eo. contradiction.
    + reflexivity.
Qed.

(** *** What a returning call did *)

Lemma reset_Ok fuel st st' :
  reset fuel st = Ok st' ->
  exists (p : Vec2) (g' : R),
    spawnFood_loop fuel (w_ st) (h_ st) (initial_snake (w_ st) (h_ st)) (rnd_ st)
    = Ok (p, g')
    /\ st' = mkGame (w_ st) (h_ st) g' (initial_snake (w_ st) (h_ st)) p Right
               false false (Int.repr 0) (Int.repr 110).
Proof.
  unfold reset, spawnFood. cbn.
  fold (initial_snake (w_ st) (h_ st)).
  destruct (spawnFood_loop fuel (w_ st) (h_ st) (initial_snake (w_ st) (h_ st)) (rnd_ st))
    as [[p g']| | |]; cbn; try discriminate.
  intros E. inversion E. exists p, g'. split; reflexivity.
Qed.

Lemma step_Ok fuel st st' : step fuel st = Ok st' -> step_outcome fuel st st'.
Proof.
  unfold step. destruct (gameOver_ st) eqn:Hover.
  - intros [= <-]. now apply step_idle.
  - destruct (snake_ st) as [|head rest] eqn:Hsnake; [discriminate|].
    destruct (hitWall st (advance (dir_ st) head)) eqn:Hwall.
    + cbn. intros [= <-]. eapply step_crash; eauto.
    + unfold hitSelf. rewrite Hsnake.
      destruct (hitSelf_loop (head :: rest) (advance (dir_ st) head)) eqn:Hself.
      * cbn. intros [= <-]. eapply step_crash; eauto.
        right. rewrite Hsnake. now apply hitSelf_loop_elem.
      * apply hitSelf_loop_not_elem in Hself.
        cbn [orb with_snake food_ snake_].
        destruct (Vec2_eqb (advance (dir_ st) head) (food_ st)) eqn:Hfood.
        -- apply Vec2_eqb_eq in Hfood. unfold spawnFood. cbn.
           destruct (spawnFood_loop fuel (w_ st) (h_ st)
                       (advance (dir_ st) head :: head :: rest) (rnd_ st))
             as [[p g']| | |] eqn:Hloop; cbn; try discriminate.
           intros [= <-]. rewrite <- Hsnake in Hself, Hloop.
           eapply step_eat; eauto.
           unfold with_food, with_rnd, with_tickMs, with_score, with_snake. cbn.
           now rewrite Hover, Hsnake.
        -- apply Vec2_eqb_neq in Hfood. intros [= <-]. rewrite <- Hsnake in Hself.
           eapply step_move; eauto.
           unfold with_snake. cbn. now rewrite Hsnake.
Qed.

(** The ways in which [handleInput] returns. *)
Lemma handleInput_Ok fuel (c : ascii) st st' :
  handleInput fuel c st = Ok st' ->
  st' = st
  \/ st' = with_quit st true
  \/ (gameOver_ st = true /\ reset fuel st = Ok st')
  \/ exists d, st' = with_dir st d.
Proof.
  unfold handleInput.
  destruct (Ascii.eqb c zero); [intros [= <-]; auto|].
  destruct (Ascii.eqb c "q" || Ascii.eqb c "Q"); [intros [= <-]; auto|].
  destruct ((Ascii.eqb c "r" || Ascii.eqb c "R") && gameOver_ st) eqn:Er.
  - apply andb_prop in Er as [_ Hover]. intros E. auto.
  - cbv zeta.
    match goal with |- context [negb ?b] => destruct (negb b) end;
      intros [= <-]; eauto.
Qed.

(** *** Invariants of the reachable states *)

Lemma quot_two_bounds (w : int) :
  -1073741824 <= Z.quot (Int.signed w) 2 <= 1073741824.
Proof.
  pose proof (Int.signed_range w) as Hw. unfold Int.min_signed, Int.max_signed in Hw.
  pose proof (Z.quot_rem' (Int.signed w) 2) as E.
  pose proof (Z.rem_bound_abs (Int.signed w) 2 ltac:(lia)) as Hr.
  lia.
Qed.

Lemma initial_snake_coords (w h : int) :
  map coords (initial_snake w h)
  = [(Z.quot (Int.signed w) 2, Z.quot (Int.signed h) 2);
     (Z.quot (Int.signed w) 2 - 1, Z.quot (Int.signed h) 2);
     (Z.quot (Int.signed w) 2 - 2, Z.quot (Int.signed h) 2)].
Proof.
  pose proof (quot_two_bounds w). pose proof (quot_two_bounds h).
  unfold initial_snake, coords. cbn [map x y]. unfold Int.divs, Int.sub.
  rewrite (signed_small 2), (signed_small 1) by lia.
  int_simpl. reflexivity.
Qed.

Lemma NoDup_coords (segs : list Vec2) : NoDup (map coords segs) -> NoDup segs.
Proof. apply (NoDup_fmap_1 coords). Qed.

Lemma initial_snake_NoDup (w h : int) : NoDup (initial_snake w h).
Proof.
  apply NoDup_coords. rewrite initial_snake_coords.
  repeat (apply NoDup_cons_2; [rewrite ?elem_of_cons, elem_of_nil; intros E;
    repeat (destruct E as [E|E]); try (inversion E; lia); exact E|]).
  apply NoDup_nil_2.
Qed.

Lemma initial_snake_interior st :
  6 <= Int.signed (w_ st) -> 3 <= Int.signed (h_ st) ->
  Forall (interior st) (initial_snake (w_ st) (h_ st)).
Proof.
  intros Hw Hh.
  pose proof (Z.quot_rem' (Int.signed (w_ st)) 2) as Ew.
  pose proof (Z.rem_bound_abs (Int.signed (w_ st)) 2 ltac:(lia)) as Hrw.
  pose proof (Z.quot_rem' (Int.signed (h_ st)) 2) as Eh.
  pose proof (Z.rem_bound_abs (Int.signed (h_ st)) 2 ltac:(lia)) as Hrh.
  pose proof (Z.rem_nonneg (Int.signed (w_ st)) 2 ltac:(lia) ltac:(lia)) as Hsw.
  pose proof (Z.rem_nonneg (Int.signed (h_ st)) 2 ltac:(lia) ltac:(lia)) as Hsh.
  assert (Hc : Forall (fun c : Z * Z =>
                         1 <= fst c <= Int.signed (w_ st) - 2
                         /\ 1 <= snd c <= Int.signed (h_ st) - 2)
                      (map coords (initial_snake (w_ st) (h_ st)))).
  { rewrite initial_snake_coords.
    repeat (apply Forall_cons_2; [cbn [fst snd]; lia|]). apply Forall_nil_2. }
  apply Forall_fmap in Hc. exact Hc.
Qed.

Lemma repr_add_ten (a : Z) :
  Int.add (Int.repr a) (Int.repr 10) = Int.repr (a + 10).
Proof.
  apply Int.signed_inj. unfold Int.add. rewrite (signed_small 10) by lia.
  cbn [Int.signed Int.repr]. apply Int.wrap_wrap_add.
Qed.

Lemma reset_game_inv fuel st st' :
  reset fuel st = Ok st' -> game_inv (w_ st) (h_ st) st'.
Proof.
  intros E. apply reset_Ok in E as (p & g' & _ & ->).
  unfold game_inv. cbn [w_ h_ snake_ score_ tickMs_].
  split; [reflexivity|]. split; [reflexivity|].
  split; [apply initial_snake_NoDup|].
  split; [cbn; lia|]. split; [reflexivity|].
  rewrite signed_small by lia. lia.
Qed.

Lemma step_game_inv fuel (w h : int) st st' :
  game_inv w h st -> step fuel st = Ok st' -> game_inv w h st'.
Proof.
  intros (Hw & Hh & Hnd & Hlen & Hscore & Htick) E.
  apply step_Ok in E.
  destruct E as [_ -> | head rest _ _ _ -> | head rest p g' _ Hs _ Hfree _ _ ->
                | head rest _ Hs _ Hfree _ ->];
    unfold game_inv; cbn [w_ h_ snake_ score_ tickMs_ with_gameOver with_snake];
    (split; [exact Hw|]); (split; [exact Hh|]).
  - auto.
  - auto.
  - split; [now apply NoDup_cons_2|].
    split; [cbn [length]; lia|].
    split.
    + rewrite Hscore, repr_add_ten. f_equal. cbn [length]. lia.
    + unfold Int.max, Int.sub. int_simpl.
      destruct (Z.ltb_spec 55 (Int.signed (tickMs_ st) - 2)); int_simpl; lia.
  - assert (Hl : length (advance (dir_ st) head :: removelast (snake_ st))
                 = length (snake_ st)).
    { rewrite Hs. cbn [length]. now rewrite length_removelast_cons. }
    rewrite Hl. split; [|auto].
    apply NoDup_cons_2; [|now apply NoDup_removelast].
    intros Hin. apply Hfree. now apply elem_of_removelast.
Qed.

Lemma handleInput_game_inv fuel (c : ascii) (w h : int) st st' :
  game_inv w h st -> handleInput fuel c st = Ok st' -> game_inv w h st'.
Proof.
  intros Hinv E. pose proof Hinv as (Hw & Hh & _).
  apply handleInput_Ok in E as [-> | [-> | [[_ E] | [d ->]]]]; try exact Hinv.
  rewrite <- Hw, <- Hh. now apply (reset_game_inv fuel).
Qed.

Lemma reachable_game_inv (w h : int) st : reachable w h st -> game_inv w h st.
Proof.
  induction 1 as [fuel g st E | fuel st st' _ IH E | fuel c st st' _ IH E].
  - unfold newGame in E. now apply reset_game_inv in E.
  - now apply (step_game_inv fuel w h st).
  - now apply (handleInput_game_inv fuel c w h st).
Qed.

Lemma reset_inside fuel st st' :
  6 <= Int.signed (w_ st) -> 3 <= Int.signed (h_ st) ->
  reset fuel st = Ok st' -> inside_inv st'.
Proof.
  intros Hw Hh E. apply reset_Ok in E as (p & g' & Hloop & ->).
  apply spawnFood_loop_Ok in Hloop as (Hx & Hy & _).
  rewrite sub_two_small in Hx by (unfold Int.min_signed; lia).
  rewrite sub_two_small in Hy by (unfold Int.min_signed; lia).
  split; cbn [snake_ food_].
  - pose proof (initial_snake_interior st Hw Hh) as Hi.
    eapply Forall_impl; [|exact Hi]. intros q Hq. exact Hq.
  - split; assumption.
Qed.

Lemma step_inside fuel st st' :
  Int.min_signed + 2 <= Int.signed (w_ st) ->
  Int.min_signed + 2 <= Int.signed (h_ st) ->
  inside_inv st -> step fuel st = Ok st' -> inside_inv st'.
Proof.
  intros Hw Hh [Hsnake Hfood] E. apply step_Ok in E.
  destruct E as [_ -> | head rest _ _ _ -> | head rest p g' _ Hs Hwall _ _ Hloop ->
                | head rest _ Hs Hwall _ _ ->].
  - split; assumption.
  - split; assumption.
  - apply hitWall_false_interior in Hwall; [|lia|lia].
    apply spawnFood_loop_Ok in Hloop as (Hx & Hy & _).
    rewrite sub_two_small in Hx by assumption.
    rewrite sub_two_small in Hy by assumption.
    split; cbn [snake_ food_].
    + apply Forall_cons_2; [exact Hwall | exact Hsnake].
    + split; assumption.
  - apply hitWall_false_interior in Hwall; [|lia|lia].
    split; cbn [snake_ food_ with_snake]; [|exact Hfood].
    apply Forall_cons_2; [exact Hwall|].
    apply list.Forall_forall. intros q Hq. apply elem_of_removelast in Hq.
    revert q Hq. now apply list.Forall_forall.
Qed.

Lemma handleInput_inside fuel (c : ascii) st st' :
  6 <= Int.signed (w_ st) -> 3 <= Int.signed (h_ st) ->
  inside_inv st -> handleInput fuel c st = Ok st' -> inside_inv st'.
Proof.
  intros Hw Hh Hinv E.
  apply handleInput_Ok in E as [-> | [-> | [[_ E] | [d ->]]]]; try exact Hinv.
  now apply (reset_inside fuel st).
Qed.

Lemma reachable_inside (w h : int) st :
  6 <= Int.signed w -> 3 <= Int.signed h ->
  reachable w h st -> inside_inv st.
Proof.
  intros Hw Hh Hreach.
  induction Hreach as [fuel g st E | fuel st st' Hr IH E | fuel c st st' Hr IH E].
  - unfold newGame in E. apply (reset_inside fuel) in E; [exact E|exact Hw|exact Hh].
  - apply reachable_game_inv in Hr as (Ew & Eh & _).
    apply (step_inside fuel st); auto; rewrite ?Ew, ?Eh; unfold Int.min_signed; lia.
  - apply reachable_game_inv in Hr as (Ew & Eh & _).
    apply (handleInput_inside fuel c st); auto; rewrite ?Ew, ?Eh; lia.
Qed.

(** *** [buildBuffer] stays inside the frame *)

Lemma returns_frame_bind (h w : nat) (r : result Buffer) (k : Buffer -> result Buffer) :
  returns_frame h w r ->
  (forall b, buf_dims h w b -> returns_frame h w (k b)) ->
  returns_frame h w (r ≫= k).
Proof. intros (b & -> & Hb) Hk. cbn. now apply Hk. Qed.

Lemma buf_write_frame (h w : nat) (buf : Buffer) (row col : Z) (ch : ascii) :
  buf_dims h w buf ->
  0 <= row < Z.of_nat h -> 0 <= col < Z.of_nat w ->
  returns_frame h w (buf_write buf row col ch).
Proof.
  intros [Hlen Hrows] Hrow Hcol. unfold buf_write.
  replace ((0 <=? row) && (0 <=? col)) with true
    by (symmetry; apply andb_true_intro; split; apply Z.leb_le; lia).
  destruct (lookup_lt_is_Some_2 buf (Z.to_nat row) ltac:(lia)) as [line Hline].
  rewrite Hline.
  assert (Hw : length line = w).
  { eapply (proj1 (Forall_lookup _ _) Hrows); eauto. }
  replace (Nat.ltb (Z.to_nat col) (length line)) with true
    by (symmetry; apply Nat.ltb_lt; lia).
  eexists; split; [reflexivity|]. split.
  - now rewrite length_insert.
  - apply Forall_insert; [exact Hrows|]. now rewrite length_insert.
Qed.

Lemma for_range_frame (h w : nat) (n : nat) (i : Z)
    (body : Z -> Buffer -> result Buffer) (buf : Buffer) :
  (forall j b, i <= j < i + Z.of_nat n -> buf_dims h w b -> returns_frame h w (body j b)) ->
  buf_dims h w buf ->
  returns_frame h w (for_range n i body buf).
Proof.
  revert i buf. induction n as [|n IH]; intros i buf Hbody Hbuf; cbn [for_range].
  - now exists buf.
  - apply returns_frame_bind.
    + apply Hbody; [lia | exact Hbuf].
    + intros b Hb. apply IH; [|exact Hb].
      intros j b' Hj. apply Hbody. lia.
Qed.

Lemma draw_snake_frame (h w : nat) (segs : list Vec2) (i : nat) (buf : Buffer) :
  Forall (fun p => 0 <= Int.signed (y p) < Z.of_nat h
                   /\ 0 <= Int.signed (x p) < Z.of_nat w) segs ->
  buf_dims h w buf ->
  returns_frame h w (draw_snake segs i buf).
Proof.
  revert i buf. induction segs as [|p rest IH]; intros i buf Hsegs Hbuf; cbn [draw_snake].
  - now exists buf.
  - apply Forall_cons_1 in Hsegs as [[Hy Hx] Hrest].
    apply returns_frame_bind.
    + now apply buf_write_frame.
    + intros b Hb. now apply IH.
Qed.

Lemma draw_hud_frame (h : nat) (w : int) (hud : list ascii) (i : Z) (buf : Buffer) :
  (0 < h)%nat -> 0 <= i ->
  buf_dims h (Z.to_nat (Int.signed w)) buf ->
  returns_frame h (Z.to_nat (Int.signed w)) (draw_hud hud i w buf).
Proof.
  intros Hh. revert i buf. induction hud as [|c rest IH]; intros i buf Hi Hbuf;
    cbn [draw_hud].
  - now exists buf.
  - destruct (Z.ltb_spec (i + 2) (Int.signed w)) as [Hlt|Hge]; [|now exists buf].
    apply returns_frame_bind.
    + apply buf_write_frame; [exact Hbuf | lia | lia].
    + intros b Hb. apply IH; [lia | exact Hb].
Qed.

Lemma draw_msg_frame (h : nat) (w : int) (msg : list ascii) (i : Z)
    (start row : int) (buf : Buffer) :
  0 <= Int.signed w ->
  0 <= Int.signed row < Z.of_nat h ->
  0 <= Int.signed start -> 0 <= i ->
  Int.signed start + i + Z.of_nat (length msg) <= Int.max_signed ->
  buf_dims h (Z.to_nat (Int.signed w)) buf ->
  returns_frame h (Z.to_nat (Int.signed w)) (draw_msg msg i start row w buf).
Proof.
  intros Hw Hrow Hstart. revert i buf.
  induction msg as [|c rest IH]; intros i buf Hi Hfit Hbuf; cbn [draw_msg].
  - now exists buf.
  - cbn [length] in Hfit. unfold Int.max_signed in Hfit.
    pose proof (Int.signed_range w) as Hwr. unfold Int.min_signed, Int.max_signed in Hwr.
    unfold Int.ltb, Int.add, Int.sub. int_simpl.
    destruct (Z.ltb_spec (Int.signed start + i) (Int.signed w - 1)) as [Hlt|Hge];
      [|now exists buf].
    apply returns_frame_bind.
    + apply buf_write_frame; [exact Hbuf | lia | lia].
    + intros b Hb. apply IH; [lia | unfold Int.max_signed; lia | exact Hb].
Qed.

Lemma blank_frame (h w : nat) :
  buf_dims h w (replicate h (replicate w " "%char)).
Proof.
  split; [apply length_replicate|].
  apply Forall_replicate. apply length_replicate.
Qed.

(** With the snake and the food strictly inside the walls, every write
    of [buildBuffer] lands inside the frame and the frame is returned. *)
Lemma buildBuffer_frame st :
  inside_inv st ->
  returns_frame (Z.to_nat (Int.signed (h_ st))) (Z.to_nat (Int.signed (w_ st)))
    (buildBuffer st).
Proof.
  intros [Hsnake Hfood].
  pose proof (Int.signed_range (w_ st)) as Hwr.
  pose proof (Int.signed_range (h_ st)) as Hhr.
  unfold Int.min_signed, Int.max_signed in *.
  destruct Hfood as [[Hfx1 Hfx2] [Hfy1 Hfy2]].
  unfold buildBuffer.
  replace ((Int.signed (w_ st) <? 0) || (Int.signed (h_ st) <? 0)) with false
    by (symmetry; apply orb_false_intro; apply Z.ltb_ge; lia).
  cbv zeta.
  apply returns_frame_bind; [|intros b1 Hb1; apply returns_frame_bind;
    [|intros b2 Hb2; apply returns_frame_bind;
      [|intros b3 Hb3; apply returns_frame_bind;
        [|intros b4 Hb4; apply returns_frame_bind; [|intros b5 Hb5]]]]].
  - apply for_range_frame; [|apply blank_frame].
    intros j b Hj Hb. apply returns_frame_bind.
    + apply buf_write_frame; [exact Hb | lia | lia].
    + intros b' Hb'. unfold Int.sub. int_simpl.
      apply buf_write_frame; [exact Hb' | lia | lia].
  - apply for_range_frame; [|exact Hb1].
    intros j b Hj Hb. apply returns_frame_bind.
    + apply buf_write_frame; [exact Hb | lia | lia].
    + intros b' Hb'. unfold Int.sub. int_simpl.
      apply buf_write_frame; [exact Hb' | lia | lia].
  - apply buf_write_frame; [exact Hb2 | lia | lia].
  - apply draw_snake_frame; [|exact Hb3].
    eapply Forall_impl; [|exact Hsnake].
    intros p [[? ?] [? ?]]. lia.
  - apply draw_hud_frame; [lia | lia | exact Hb4].
  - destruct (gameOver_ st); [|now exists b5].
    pose proof (quot_two_bounds (h_ st)) as Hq.
    pose proof (Z.quot_rem' (Int.signed (h_ st)) 2) as Eh.
    pose proof (Z.rem_bound_abs (Int.signed (h_ st)) 2 ltac:(lia)) as Hrh.
    pose proof (Z.rem_nonneg (Int.signed (h_ st)) 2 ltac:(lia) ltac:(lia)) as Hsh.
    change (length gameOver_text) with 30%nat.
    pose proof (quot_two_bounds (Int.sub (w_ st) (Int.repr (Z.of_nat 30)))) as Hs.
    apply draw_msg_frame; try lia; try exact Hb5.
    + unfold Int.divs. int_simpl. lia.
    + unfold Int.max, Int.divs. int_simpl.
      match goal with |- context [if ?a <? ?b then _ else _] => destruct (Z.ltb_spec a b) end;
        int_simpl; lia.
    + unfold Int.max, Int.divs. int_simpl. change (length gameOver_text) with 30%nat.
      unfold Int.max_signed.
      match goal with |- context [if ?a <? ?b then _ else _] => destruct (Z.ltb_spec a b) end;
        int_simpl; lia.
Qed.

(** *** The food loop returns once a free cell is proposed *)

Lemma nextInt_draw (g : R) (lo hi : int) :
  Int.leb lo hi = true -> nextInt g lo hi = Ok (draw g lo hi).
Proof. unfold nextInt. now intros ->. Qed.

Lemma spawnFood_loop_step fuel (w h : int) (segs : list Vec2) (g : R) :
  grid_ok w h ->
  spawnFood_loop (S fuel) w h segs g
  = if spawnFood_free segs (fst (try_once w h g)) then Ok (try_once w h g)
    else spawnFood_loop fuel w h segs (snd (try_once w h g)).
Proof.
  intros [Hw Hh]. cbn [spawnFood_loop]. unfold try_once.
  rewrite (nextInt_draw g _ _ Hw).
  destruct (draw g (Int.repr 1) (Int.sub w (Int.repr 2))) as [px g1]. cbn.
  rewrite (nextInt_draw g1 _ _ Hh).
  destruct (draw g1 (Int.repr 1) (Int.sub h (Int.repr 2))) as [py g2]. reflexivity.
Qed.

(** If the cell proposed after [n] rejected ones is free, [n + 1] units
    of fuel are enough for the loop to return. *)
Lemma spawnFood_loop_returns (n : nat) (w h : int) (segs : list Vec2) (g : R) :
  grid_ok w h ->
  fst (try_once w h (after_tries n w h g)) ∉ segs ->
  exists r, spawnFood_loop (S n) w h segs g = Ok r.
Proof.
  intros Hgrid. revert g. induction n as [|n IH]; intros g Hfree;
    rewrite spawnFood_loop_step by exact Hgrid.
  - cbn [after_tries] in Hfree. apply spawnFood_free_not_elem in Hfree.
    rewrite Hfree. eauto.
  - destruct (spawnFood_free segs (fst (try_once w h g))); [eauto|].
    apply IH. exact Hfree.
Qed.

(** On such a grid the loop runs into nothing undefined. *)
Lemma spawnFood_loop_defined fuel (w h : int) (segs : list Vec2) (g : R) :
  grid_ok w h -> defined (spawnFood_loop fuel w h segs g).
Proof.
  intros Hgrid. revert g. induction fuel as [|fuel IH]; intros g.
  - now right.
  - rewrite spawnFood_loop_step by exact Hgrid.
    destruct (spawnFood_free segs (fst (try_once w h g))); [left; eauto | apply IH].
Qed.

Lemma spawnFood_loop_grid fuel (w h : int) (segs : list Vec2) (g : R) r :
  spawnFood_loop fuel w h segs g = Ok r -> grid_ok w h.
Proof.
  destruct fuel as [|fuel]; [discriminate|]. cbn [spawnFood_loop]. unfold nextInt.
  destruct (Int.leb (Int.repr 1) (Int.sub w (Int.repr 2))) eqn:Hw; [|discriminate].
  cbn. destruct (draw g (Int.repr 1) (Int.sub w (Int.repr 2))) as [px g1].
  destruct (Int.leb (Int.repr 1) (Int.sub h (Int.repr 2))) eqn:Hh; [|discriminate].
  intros _. now split.
Qed.

Lemma reachable_grid_ok (w h : int) st : reachable w h st -> grid_ok w h.
Proof.
  induction 1 as [fuel g st E | |]; try assumption.
  unfold newGame in E. apply reset_Ok in E as (p & g' & Hloop & _).
  now apply spawnFood_loop_grid in Hloop.
Qed.

Lemma spawnFood_defined fuel st :
  grid_ok (w_ st) (h_ st) -> defined (spawnFood fuel st).
Proof.
  intros Hgrid. unfold spawnFood.
  destruct (spawnFood_loop_defined fuel (w_ st) (h_ st) (snake_ st) (rnd_ st) Hgrid)
    as [[[p g] ->] | ->]; cbn; [left; eauto | now right].
Qed.

(** No call made in a reachable state runs into undefined behaviour:
    [step] and [handleInput] return, or the food loop is still looking
    for a free cell. *)
Lemma reachable_defined (w h : int) st fuel :
  reachable w h st ->
  defined (step fuel st) /\ forall c, defined (handleInput fuel c st).
Proof.
  intros Hreach.
  pose proof (reachable_grid_ok w h st Hreach) as Hgrid.
  pose proof (reachable_game_inv w h st Hreach) as (Ew & Eh & _ & Hlen & _).
  rewrite <- Ew, <- Eh in Hgrid. split.
  - unfold step. destruct (gameOver_ st); [left; eauto|].
    destruct (snake_ st) as [|head rest] eqn:Hs; [cbn in Hlen; lia|].
    destruct (hitWall st (advance (dir_ st) head) || hitSelf st (advance (dir_ st) head));
      [left; eauto|].
    cbv zeta.
    destruct (Vec2_eqb (advance (dir_ st) head)
                (food_ (with_snake st (advance (dir_ st) head :: head :: rest))));
      [|left; eauto].
    now apply spawnFood_defined.
  - intros c. unfold handleInput.
    destruct (Ascii.eqb c zero); [left; eauto|].
    destruct (Ascii.eqb c "q" || Ascii.eqb c "Q"); [left; eauto|].
    destruct ((Ascii.eqb c "r" || Ascii.eqb c "R") && gameOver_ st).
    + unfold reset. now apply spawnFood_defined.
    + cbv zeta. match goal with |- context [negb ?b] => destruct (negb b) end; left; eauto.
Qed.

(** The tick interval of a reachable state lies between the floor and
    the initial value. *)
Lemma reachable_tick_bounds (w h : int) st :
  reachable w h st -> 55 <= Int.signed (tickMs_ st) <= 110.
Proof. intros Hreach. now apply reachable_game_inv in Hreach as (_ & _ & _ & _ & _ & Ht). Qed.

(** *** Eating and restarting: when the food loop returns *)

(** The loop returns the first free cell the generator proposes, as soon
    as the fuel reaches it. *)
Lemma spawnFood_loop_finds (n fuel : nat) (w h : int) (segs : list Vec2) (g : R) :
  grid_ok w h -> first_free n w h segs g -> (n < fuel)%nat ->
  spawnFood_loop fuel w h segs g = Ok (nth_proposal n w h g).
Proof.
  intros Hgrid. unfold first_free, nth_proposal. revert fuel g.
  induction n as [|n IH]; intros fuel g [Hbusy Hfree] Hfuel;
    (destruct fuel as [|fuel]; [lia|]); rewrite spawnFood_loop_step by exact Hgrid.
  - cbn [after_tries] in *. apply spawnFood_free_not_elem in Hfree. now rewrite Hfree.
  - assert (H0 : spawnFood_free segs (fst (try_once w h g)) = false).
    { destruct (spawnFood_free segs (fst (try_once w h g))) eqn:E; [|reflexivity].
      apply spawnFood_free_not_elem in E. exfalso. apply E.
      apply (Hbusy 0%nat). lia. }
    rewrite H0. cbn [after_tries]. apply IH; [|lia]. split; [|exact Hfree].
    intros k Hk. apply (Hbusy (S k)). lia.
Qed.

(** It returns nothing else: an answer is the first free proposal, made
    within the fuel. *)
Lemma spawnFood_loop_found fuel (w h : int) (segs : list Vec2) (g : R) r :
  spawnFood_loop fuel w h segs g = Ok r ->
  exists n, (n < fuel)%nat /\ first_free n w h segs g /\ r = nth_proposal n w h g.
Proof.
  intros E. pose proof (spawnFood_loop_grid _ _ _ _ _ _ E) as Hgrid.
  unfold first_free, nth_proposal.
  revert g E. induction fuel as [|fuel IH]; intros g; [discriminate|].
  rewrite spawnFood_loop_step by exact Hgrid.
  destruct (spawnFood_free segs (fst (try_once w h g))) eqn:Efree.
  - intros [= <-]. exists 0%nat. split; [lia|]. split; [|reflexivity].
    split; [intros k Hk; lia|]. now apply spawnFood_free_not_elem.
  - intros E. destruct (IH _ E) as (n & Hn & [Hbusy Hfree] & ->).
    exists (S n). split; [lia|]. split; [|reflexivity].
    split; [|exact Hfree]. intros [|k] Hk; [|apply Hbusy; lia].
    cbn [after_tries].
    destruct (decide (fst (try_once w h g) ∈ segs)) as [Hin|Hout]; [exact Hin|].
    apply spawnFood_free_not_elem in Hout. congruence.
Qed.

(** With every cell of the ranges on [segs] the loop has no way out. *)
Lemma spawnFood_loop_no_free fuel (w h : int) (segs : list Vec2) (g : R) :
  3 <= Int.signed w -> 3 <= Int.signed h ->
  (forall p : Vec2,
      1 <= Int.signed (x p) <= Int.signed w - 2 ->
      1 <= Int.signed (y p) <= Int.signed h - 2 -> p ∈ segs) ->
  spawnFood_loop fuel w h segs g = OutOfFuel.
Proof.
  intros Hw Hh Hfull.
  pose proof (Int.signed_range w) as Hwr. pose proof (Int.signed_range h) as Hhr.
  unfold Int.min_signed, Int.max_signed in *.
  assert (Hgrid : grid_ok w h).
  { split; unfold Int.leb, Int.sub; int_simpl; apply Z.leb_le; lia. }
  destruct (spawnFood_loop_defined fuel w h segs g Hgrid) as [[[p g'] E] | ->];
    [|reflexivity].
  exfalso. apply spawnFood_loop_Ok in E as (Hx & Hy & Hfree).
  rewrite sub_two_small in Hx by (unfold Int.min_signed; lia).
  rewrite sub_two_small in Hy by (unfold Int.min_signed; lia).
  now apply Hfree, Hfull.
Qed.

Lemma interior_grid_ok st p : interior st p -> grid_ok (w_ st) (h_ st).
Proof.
  intros [[? ?] [? ?]].
  pose proof (Int.signed_range (w_ st)). pose proof (Int.signed_range (h_ st)).
  unfold Int.min_signed, Int.max_signed in *.
  split; unfold Int.leb, Int.sub; int_simpl; apply Z.leb_le; lia.
Qed.

(** A step that eats is the growth followed by the food loop on the
    grown snake. *)
Lemma step_eats_unfold fuel st (head : Vec2) (rest : list Vec2) :
  gameOver_ st = false ->
  snake_ st = head :: rest ->
  interior st (advance (dir_ st) head) ->
  advance (dir_ st) head ∉ snake_ st ->
  advance (dir_ st) head = food_ st ->
  step fuel st
  = (r ← spawnFood_loop fuel (w_ st) (h_ st) (advance (dir_ st) head :: snake_ st)
          (rnd_ st);
     Ok (mkGame (w_ st) (h_ st) (snd r) (advance (dir_ st) head :: snake_ st) (fst r)
           (dir_ st) (quit_ st) false
           (Int.add (score_ st) (Int.repr 10))
           (Int.max (Int.repr 55) (Int.sub (tickMs_ st) (Int.repr 2))))).
Proof.
  intros Hplay Hsnake Hin Hfree Hfood.
  unfold step. rewrite Hplay, Hsnake.
  rewrite (hitWall_interior st _ Hin).
  unfold hitSelf. rewrite Hsnake.
  rewrite Hsnake in Hfree. apply hitSelf_loop_not_elem in Hfree. rewrite Hfree.
  cbn [orb with_snake food_ snake_].
  apply Vec2_eqb_eq in Hfood. rewrite Hfood.
  unfold spawnFood. cbn.
  destruct (spawnFood_loop fuel (w_ st) (h_ st) (advance (dir_ st) head :: head :: rest)
              (rnd_ st)) as [[p g']| | |]; cbn; try reflexivity.
  unfold with_food, with_rnd, with_tickMs, with_score, with_snake. cbn.
  rewrite Hplay. reflexivity.
Qed.

(** C2: in a Playing state whose next head is strictly inside the
    walls, on no body segment and on the food, [step] pushes the next
    head and keeps the tail, and then looks for the new food on the grown
    snake.  If the generator's proposal number [n] is the first one off
    the grown snake, [step] returns with any fuel above [n]: the body has
    one segment more, the score is [score_ + 10], the tick interval
    [max(55, tickMs_ - 2)], never below 55, and the food is that proposal,
    an interior cell off the grown snake and so not the cell just eaten.
    [step] returns in no other way; and if the grown snake covers the
    whole interior it does not return, whatever the generator draws and
    whatever the fuel.  The score and the interval are the mathematical
    [score_ + 10] and [max 55 (tickMs_ - 2)] whenever these do not leave
    the range of [int]. *)
Theorem step_eats_food fuel st (head : Vec2) (rest : list Vec2) :
  gameOver_ st = false ->
  snake_ st = head :: rest ->
  interior st (advance (dir_ st) head) ->
  advance (dir_ st) head ∉ snake_ st ->
  advance (dir_ st) head = food_ st ->
  (forall n : nat,
      first_free n (w_ st) (h_ st) (advance (dir_ st) head :: snake_ st) (rnd_ st) ->
      (n < fuel)%nat ->
      step fuel st
      = Ok (mkGame (w_ st) (h_ st) (snd (nth_proposal n (w_ st) (h_ st) (rnd_ st)))
              (advance (dir_ st) head :: snake_ st)
              (fst (nth_proposal n (w_ st) (h_ st) (rnd_ st))) (dir_ st)
              (quit_ st) false
              (Int.add (score_ st) (Int.repr 10))
              (Int.max (Int.repr 55) (Int.sub (tickMs_ st) (Int.repr 2))))
      /\ interior st (fst (nth_proposal n (w_ st) (h_ st) (rnd_ st)))
      /\ (fst (nth_proposal n (w_ st) (h_ st) (rnd_ st))
          ∉ advance (dir_ st) head :: snake_ st)
      /\ fst (nth_proposal n (w_ st) (h_ st) (rnd_ st)) <> food_ st)
  /\ (forall st', step fuel st = Ok st' ->
      exists n : nat,
        (n < fuel)%nat
        /\ first_free n (w_ st) (h_ st) (advance (dir_ st) head :: snake_ st) (rnd_ st)
        /\ st' = mkGame (w_ st) (h_ st) (snd (nth_proposal n (w_ st) (h_ st) (rnd_ st)))
                   (advance (dir_ st) head :: snake_ st)
                   (fst (nth_proposal n (w_ st) (h_ st) (rnd_ st))) (dir_ st)
                   (quit_ st) false
                   (Int.add (score_ st) (Int.repr 10))
                   (Int.max (Int.repr 55) (Int.sub (tickMs_ st) (Int.repr 2))))
  /\ ((forall p, interior st p -> p ∈ advance (dir_ st) head :: snake_ st) ->
      step fuel st = OutOfFuel)
  /\ length (advance (dir_ st) head :: snake_ st) = S (length (snake_ st))
  /\ (Int.signed (score_ st) + 10 <= Int.max_signed ->
      Int.signed (Int.add (score_ st) (Int.repr 10)) = Int.signed (score_ st) + 10)
  /\ 55 <= Int.signed (Int.max (Int.repr 55) (Int.sub (tickMs_ st) (Int.repr 2)))
  /\ (Int.min_signed + 2 <= Int.signed (tickMs_ st) ->
      Int.signed (Int.max (Int.repr 55) (Int.sub (tickMs_ st) (Int.repr 2)))
      = Z.max 55 (Int.signed (tickMs_ st) - 2)).
Proof.
  intros Hplay Hsnake Hin Hfree Hfood.
  pose proof (step_eats_unfold fuel st head rest Hplay Hsnake Hin Hfree Hfood) as Hstep.
  pose proof (interior_grid_ok st _ Hin) as Hgrid.
  pose proof (Int.signed_range (score_ st)) as Hsc.
  pose proof (Int.signed_range (tickMs_ st)) as Htk.
  pose proof (Int.signed_range (w_ st)) as Hw.
  pose proof (Int.signed_range (h_ st)) as Hh.
  unfold Int.min_signed, Int.max_signed in *.
  split; [|split; [|split; [|split; [|split; [|split]]]]].
  - intros n Hfirst Hfuel.
    pose proof (spawnFood_loop_finds n fuel _ _ _ _ Hgrid Hfirst Hfuel) as Hloop.
    split; [rewrite Hstep, Hloop; reflexivity|].
    destruct (nth_proposal n (w_ st) (h_ st) (rnd_ st)) as [p g'] eqn:Hp.
    apply spawnFood_loop_Ok in Hloop as (Hpx & Hpy & Hoff). cbn [fst].
    destruct Hin as [[? ?] [? ?]].
    rewrite sub_two_small in Hpx by (unfold Int.min_signed; lia).
    rewrite sub_two_small in Hpy by (unfold Int.min_signed; lia).
    split; [split; assumption|]. split; [exact Hoff|].
    intros E. apply Hoff. rewrite E, <- Hfood. left.
  - intros st'. rewrite Hstep.
    destruct (spawnFood_loop fuel (w_ st) (h_ st) (advance (dir_ st) head :: snake_ st)
                (rnd_ st)) as [r| | |] eqn:Hloop; cbn; try discriminate.
    intros [= <-]. apply spawnFood_loop_found in Hloop as (n & Hn & Hfirst & ->).
    exists n. split; [exact Hn|]. split; [exact Hfirst|]. reflexivity.
  - intros Hfull. rewrite Hstep.
    destruct Hin as [[? ?] [? ?]].
    rewrite spawnFood_loop_no_free; [reflexivity | lia | lia |].
    intros p Hx Hy. apply Hfull. split; assumption.
  - reflexivity.
  - intros Hno. unfold Int.add. int_simpl. reflexivity.
  - unfold Int.max. int_simpl.
    destruct (Z.ltb_spec 55 (Int.signed (Int.sub (tickMs_ st) (Int.repr 2)))); [lia|].
    int_simpl. lia.
  - intros Hno. unfold Int.max, Int.sub. int_simpl.
    destruct (Z.ltb_spec 55 (Int.signed (tickMs_ st) - 2)); int_simpl; lia.
Qed.

(** C5: [r] or [R] after a game over runs [reset]: the body is the
    initial three segments (the head at [(w/2, h/2)], two more to its
    left), the direction [Right], the score 0, the tick interval 110,
    [gameOver_] cleared, and the food is the first cell off that body the
    generator proposes.  On a grid whose ranges [1, w - 2] and [1, h - 2]
    are not empty the call returns this state as soon as the fuel is
    above the number [n] of that proposal, and it returns in no other
    way.  While the game is not over the same key leaves the whole state
    as it is. *)
Theorem handleInput_restart fuel st (c : ascii) :
  c = "r"%char \/ c = "R"%char ->
  (gameOver_ st = false -> handleInput fuel c st = Ok st)
  /\ (gameOver_ st = true ->
      grid_ok (w_ st) (h_ st) ->
      forall n : nat,
        first_free n (w_ st) (h_ st) (initial_snake (w_ st) (h_ st)) (rnd_ st) ->
        (n < fuel)%nat ->
        handleInput fuel c st
        = Ok (mkGame (w_ st) (h_ st) (snd (nth_proposal n (w_ st) (h_ st) (rnd_ st)))
                (initial_snake (w_ st) (h_ st))
                (fst (nth_proposal n (w_ st) (h_ st) (rnd_ st))) Right
                false false (Int.repr 0) (Int.repr 110)))
  /\ (gameOver_ st = true ->
      forall st', handleInput fuel c st = Ok st' ->
      exists n : nat,
        (n < fuel)%nat
        /\ first_free n (w_ st) (h_ st) (initial_snake (w_ st) (h_ st)) (rnd_ st)
        /\ st' = mkGame (w_ st) (h_ st) (snd (nth_proposal n (w_ st) (h_ st) (rnd_ st)))
                   (initial_snake (w_ st) (h_ st))
                   (fst (nth_proposal n (w_ st) (h_ st) (rnd_ st))) Right
                   false false (Int.repr 0) (Int.repr 110))
  /\ (0 <= Int.signed (w_ st) -> 0 <= Int.signed (h_ st) ->
      map coords (initial_snake (w_ st) (h_ st))
      = [(Int.signed (w_ st) / 2, Int.signed (h_ st) / 2);
         (Int.signed (w_ st) / 2 - 1, Int.signed (h_ st) / 2);
         (Int.signed (w_ st) / 2 - 2, Int.signed (h_ st) / 2)]).
Proof.
  intros Hkey.
  assert (Hreset : gameOver_ st = true -> handleInput fuel c st = reset fuel st).
  { intros Hover. unfold handleInput.
    destruct Hkey as [-> | ->]; cbn; rewrite Hover; reflexivity. }
  assert (Hloop : reset fuel st
                  = (r ← spawnFood_loop fuel (w_ st) (h_ st)
                          (initial_snake (w_ st) (h_ st)) (rnd_ st);
                     Ok (mkGame (w_ st) (h_ st) (snd r) (initial_snake (w_ st) (h_ st))
                           (fst r) Right false false (Int.repr 0) (Int.repr 110)))).
  { unfold reset, spawnFood. cbn. fold (initial_snake (w_ st) (h_ st)).
    destruct (spawnFood_loop fuel (w_ st) (h_ st) (initial_snake (w_ st) (h_ st))
                (rnd_ st)) as [[p g']| | |]; reflexivity. }
  split; [|split; [|split]].
  - intros Hplay. unfold handleInput.
    destruct Hkey as [-> | ->]; cbn; rewrite Hplay; cbn;
      replace (isOpposite (dir_ st) (dir_ st)) with false by (now destruct (dir_ st));
      cbn; now rewrite with_dir_same.
  - intros Hover Hgrid n Hfirst Hfuel.
    rewrite (Hreset Hover), Hloop.
    now rewrite (spawnFood_loop_finds n fuel _ _ _ _ Hgrid Hfirst Hfuel).
  - intros Hover st'. rewrite (Hreset Hover), Hloop.
    destruct (spawnFood_loop fuel (w_ st) (h_ st) (initial_snake (w_ st) (h_ st))
                (rnd_ st)) as [r| | |] eqn:E; cbn; try discriminate.
    intros [= <-]. apply spawnFood_loop_found in E as (n & Hn & Hfirst & ->).
    exists n. split; [exact Hn|]. split; [exact Hfirst|]. reflexivity.
  - intros Hw Hh.
    pose proof (Int.signed_range (w_ st)). pose proof (Int.signed_range (h_ st)).
    unfold Int.min_signed, Int.max_signed in *.
    unfold initial_snake, coords. cbn [map x y]. unfold Int.divs, Int.sub.
    rewrite (signed_small 2), (signed_small 1) by lia.
    rewrite !Z.quot_div_nonneg by lia.
    assert (0 <= Int.signed (w_ st) / 2 <= 2147483647) by (split; [apply Z.div_pos | apply Z.div_le_upper_bound]; lia).
    assert (0 <= Int.signed (h_ st) / 2 <= 2147483647) by (split; [apply Z.div_pos | apply Z.div_le_upper_bound]; lia).
    int_simpl. reflexivity.
Qed.

(** *** The reachable states *)

(** C7: on a grid of at least 6 by 3 cells (the program's is 50 by 22),
    in every state reachable from the constructor through [step] and
    [handleInput], each segment of the snake and the food lie strictly
    inside the walls; [buildBuffer] then performs all its writes, those
    at the snake and at the food among them, inside the [h_] by [w_]
    frame and returns it. *)
Theorem reachable_inside_walls (w h : int) st :
  6 <= Int.signed w -> 3 <= Int.signed h ->
  reachable w h st ->
  Forall (interior st) (snake_ st)
  /\ interior st (food_ st)
  /\ Int.signed (w_ st) = Int.signed w /\ Int.signed (h_ st) = Int.signed h
  /\ exists buf, buildBuffer st = Ok buf
                 /\ buf_dims (Z.to_nat (Int.signed h)) (Z.to_nat (Int.signed w)) buf.
Proof.
  intros Hw Hh Hreach.
  pose proof (reachable_inside w h st Hw Hh Hreach) as Hin.
  pose proof (reachable_game_inv w h st Hreach) as (Ew & Eh & _).
  destruct (buildBuffer_frame st Hin) as (buf & Hbuf & Hdims).
  rewrite Ew, Eh in Hdims. destruct Hin as [Hs Hf].
  split; [exact Hs|]. split; [exact Hf|].
  split; [now rewrite Ew|]. split; [now rewrite Eh|].
  now exists buf.
Qed.

Lemma step_NoDup fuel st st' :
  NoDup (snake_ st) -> step fuel st = Ok st' -> NoDup (snake_ st').
Proof.
  intros Hnd E. apply step_Ok in E.
  destruct E as [_ -> | head rest _ _ _ -> | head rest p g' _ _ _ Hfree _ _ ->
                | head rest _ _ _ Hfree _ ->]; cbn [snake_ with_gameOver with_snake].
  - exact Hnd.
  - exact Hnd.
  - now apply NoDup_cons_2.
  - apply NoDup_cons_2; [|now apply NoDup_removelast].
    intros Hin. apply Hfree. now apply elem_of_removelast.
Qed.

Lemma handleInput_NoDup fuel (c : ascii) st st' :
  NoDup (snake_ st) -> handleInput fuel c st = Ok st' -> NoDup (snake_ st').
Proof.
  intros Hnd E.
  apply handleInput_Ok in E as [-> | [-> | [[_ E] | [d ->]]]]; try exact Hnd.
  apply reset_Ok in E as (p & g' & _ & ->). apply initial_snake_NoDup.
Qed.

(** C8: in every reachable state the positions of the snake are pairwise
    distinct; this holds whether or not [gameOver_] is set, because a
    collision leaves the body as it was.  The property is preserved by
    every [step] and every [handleInput] that returns, from any state
    that has it. *)
Theorem reachable_no_duplicates :
  (forall (w h : int) st, reachable w h st -> NoDup (snake_ st))
  /\ (forall fuel st st',
        NoDup (snake_ st) -> step fuel st = Ok st' -> NoDup (snake_ st'))
  /\ (forall fuel (c : ascii) st st',
        NoDup (snake_ st) -> handleInput fuel c st = Ok st' -> NoDup (snake_ st')).
Proof.
  split; [|split].
  - intros w h st Hreach. now apply reachable_game_inv in Hreach as (_ & _ & Hnd & _).
  - apply step_NoDup.
  - apply handleInput_NoDup.
Qed.

(** Pairwise distinct interior cells are no more than the interior has. *)
Lemma interior_length_bound st (segs : list Vec2) :
  2 <= Int.signed (w_ st) -> 2 <= Int.signed (h_ st) ->
  NoDup segs -> Forall (interior st) segs ->
  Z.of_nat (length segs) <= (Int.signed (w_ st) - 2) * (Int.signed (h_ st) - 2).
Proof.
  intros Hw Hh Hnd Hin.
  set (W := Int.signed (w_ st) - 2). set (Hgt := Int.signed (h_ st) - 2).
  assert (Hsub : cell_index st <$> segs ⊆+ seqZ 0 (W * Hgt)).
  { apply NoDup_submseteq.
    - apply NoDup_fmap_2_strong; [|exact Hnd].
      intros p q Hp Hq E.
      apply (proj1 (list.Forall_forall _ _) Hin) in Hp, Hq.
      destruct Hp as [[? ?] [? ?]], Hq as [[? ?] [? ?]].
      unfold cell_index in E. apply coords_inj. unfold coords.
      assert (Int.signed (y p) = Int.signed (y q)) by nia.
      assert (Int.signed (x p) = Int.signed (x q)) by nia.
      congruence.
    - intros i Hi. apply list_elem_of_fmap in Hi as (p & -> & Hp).
      apply (proj1 (list.Forall_forall _ _) Hin) in Hp.
      destruct Hp as [[? ?] [? ?]].
      apply elem_of_seqZ. unfold cell_index. subst W Hgt. nia. }
  apply submseteq_length in Hsub.
  rewrite length_fmap, length_seqZ in Hsub. subst W Hgt. nia.
Qed.

(** C10: in every reachable state the score is ten times the number of
    segments beyond the initial three, as an [int]; on a grid of at least
    6 by 3 cells whose interior is small enough for that product to fit an
    [int] (the program's 50 by 22 has 960 interior cells) the equality
    holds between the mathematical integers. *)
Theorem reachable_score_length (w h : int) st :
  reachable w h st ->
  (3 <= length (snake_ st))%nat
  /\ score_ st = Int.repr (10 * (Z.of_nat (length (snake_ st)) - 3))
  /\ (6 <= Int.signed w -> 3 <= Int.signed h ->
      10 * ((Int.signed w - 2) * (Int.signed h - 2) - 3) <= Int.max_signed ->
      Int.signed (score_ st) = 10 * (Z.of_nat (length (snake_ st)) - 3)).
Proof.
  intros Hreach.
  pose proof (reachable_game_inv w h st Hreach) as (Ew & Eh & Hnd & Hlen & Hscore & _).
  split; [exact Hlen|]. split; [exact Hscore|].
  intros Hw Hh Hfit.
  pose proof (reachable_inside w h st Hw Hh Hreach) as [Hin _].
  pose proof (interior_length_bound st (snake_ st)) as Hb.
  rewrite Ew, Eh in Hb. specialize (Hb ltac:(lia) ltac:(lia) Hnd Hin).
  rewrite Hscore. unfold Int.max_signed in Hfit. apply signed_small. lia.
Qed.

(** *** More invariants of the reachable states *)

Lemma step_food_free fuel st st' :
  food_ st ∉ snake_ st -> step fuel st = Ok st' -> food_ st' ∉ snake_ st'.
Proof.
  intros Hfree E. apply step_Ok in E.
  destruct E as [_ -> | head rest _ _ _ -> | head rest p g' _ _ _ _ _ Hloop ->
                | head rest _ _ _ _ Hne ->];
    cbn [snake_ food_ with_gameOver with_snake]; try exact Hfree.
  - now apply spawnFood_loop_Ok in Hloop as (_ & _ & Hp).
  - intros Hin. apply elem_of_cons in Hin as [E | Hin]; [now apply Hne|].
    apply Hfree. now apply elem_of_removelast.
Qed.

Lemma reset_food_free fuel st st' :
  reset fuel st = Ok st' -> food_ st' ∉ snake_ st'.
Proof.
  intros E. apply reset_Ok in E as (p & g' & Hloop & ->). cbn [snake_ food_].
  now apply spawnFood_loop_Ok in Hloop as (_ & _ & Hp).
Qed.

Lemma handleInput_food_free fuel (c : ascii) st st' :
  food_ st ∉ snake_ st -> handleInput fuel c st = Ok st' -> food_ st' ∉ snake_ st'.
Proof.
  intros Hfree E.
  apply handleInput_Ok in E as [-> | [-> | [[_ E] | [d ->]]]]; try exact Hfree.
  now apply reset_food_free in E.
Qed.

Lemma reachable_food_free_inv (w h : int) st :
  reachable w h st -> food_ st ∉ snake_ st.
Proof.
  induction 1 as [fuel g st E | fuel st st' _ IH E | fuel c st st' _ IH E].
  - unfold newGame in E. now apply reset_food_free in E.
  - now apply (step_food_free fuel st).
  - now apply (handleInput_food_free fuel c st).
Qed.

(** X1: in every reachable state the food lies on no segment of the
    snake, and every returning [step] and [handleInput] keeps it so from
    any state: the food loop rejects occupied cells, a move onto the food
    eats it, and a move elsewhere only frees the tail cell. *)
Theorem reachable_food_free :
  (forall (w h : int) st, reachable w h st -> food_ st ∉ snake_ st)
  /\ (forall fuel st st',
        food_ st ∉ snake_ st -> step fuel st = Ok st' -> food_ st' ∉ snake_ st')
  /\ (forall fuel (c : ascii) st st',
        food_ st ∉ snake_ st -> handleInput fuel c st = Ok st' ->
        food_ st' ∉ snake_ st').
Proof.
  split; [|split].
  - apply reachable_food_free_inv.
  - apply step_food_free.
  - apply handleInput_food_free.
Qed.

(** X2: on a grid of at least 6 by 3 cells the snake of a reachable
    state never covers the whole interior: the food always keeps one
    interior cell free, so the body has fewer segments than the interior
    has cells. *)
Theorem reachable_length_below_interior (w h : int) st :
  6 <= Int.signed w -> 3 <= Int.signed h ->
  reachable w h st ->
  Z.of_nat (length (snake_ st)) < (Int.signed w - 2) * (Int.signed h - 2).
Proof.
  intros Hw Hh Hreach.
  pose proof (reachable_game_inv w h st Hreach) as (Ew & Eh & Hnd & _).
  pose proof (reachable_inside w h st Hw Hh Hreach) as [Hin Hfood].
  pose proof (reachable_food_free_inv w h st Hreach) as Hfree.
  pose proof (interior_length_bound st (food_ st :: snake_ st)) as Hb.
  rewrite Ew, Eh in Hb.
  specialize (Hb ltac:(lia) ltac:(lia) (NoDup_cons_2 _ _ Hfree Hnd)
                 (Forall_cons_2 _ _ _ Hfood Hin)).
  cbn [length] in Hb. lia.
Qed.

Lemma chain_removelast (segs : list Vec2) : chain segs -> chain (removelast segs).
Proof.
  induction segs as [|a [|b [|c rest]] IH]; cbn; auto.
  intros [Hab Hrest]. split; [exact Hab|]. now apply IH.
Qed.

Lemma chain_lookup (segs : list Vec2) (i : nat) (a b : Vec2) :
  chain segs -> segs !! i = Some a -> segs !! S i = Some b ->
  exists d, a = advance d b.
Proof.
  revert i. induction segs as [|s [|t rest] IH]; intros i Hc Ha Hb.
  - discriminate.
  - destruct i; discriminate.
  - destruct Hc as [Hst Hrest]. destruct i as [|i].
    + cbn in Ha, Hb. injection Ha as <-. injection Hb as <-. exact Hst.
    + apply (IH i Hrest); [exact Ha | exact Hb].
Qed.

Lemma initial_snake_chain (w h : int) : chain (initial_snake w h).
Proof.
  assert (E : forall a : int, Int.add (Int.sub a (Int.repr 1)) (Int.repr 1) = a).
  { intros a. apply Int.signed_inj. unfold Int.add, Int.sub.
    rewrite (signed_small 1) by lia. cbn [Int.signed Int.repr].
    rewrite Int.wrap_wrap_add. replace (Int.signed a - 1 + 1) with (Int.signed a) by lia.
    apply Int.wrap_small, Int.signed_range. }
  assert (E2 : forall a : int,
             Int.sub (Int.sub a (Int.repr 1)) (Int.repr 1) = Int.sub a (Int.repr 2)).
  { intros a. apply Int.signed_inj. unfold Int.sub.
    rewrite (signed_small 1), (signed_small 2) by lia. cbn [Int.signed Int.repr].
    replace (Int.wrap (Int.signed a - 1) - 1) with (Int.wrap (Int.signed a - 1) + -1) by lia.
    rewrite Int.wrap_wrap_add. f_equal. lia. }
  unfold initial_snake. cbn [chain]. split; [|split; [|exact I]].
  - exists Right. cbn [advance Dir_eqb x y]. now rewrite E.
  - exists Right. cbn [advance Dir_eqb x y]. now rewrite <- E2, E.
Qed.

Lemma reachable_chain (w h : int) st : reachable w h st -> chain (snake_ st).
Proof.
  induction 1 as [fuel g st E | fuel st st' _ IH E | fuel c st st' _ IH E].
  - unfold newGame in E. apply reset_Ok in E as (p & g' & _ & ->).
    apply initial_snake_chain.
  - apply step_Ok in E.
    destruct E as [_ -> | head rest _ _ _ -> | head rest p g' _ Hs _ _ _ _ ->
                  | head rest _ Hs _ _ _ ->];
      cbn [snake_ with_gameOver with_snake]; try exact IH.
    + rewrite Hs in *. split; [eauto | exact IH].
    + rewrite Hs in *. apply (chain_removelast (_ :: head :: rest)).
      split; [eauto | exact IH].
  - apply handleInput_Ok in E as [-> | [-> | [[_ E] | [d ->]]]]; try exact IH.
    apply reset_Ok in E as (p & g' & _ & ->). apply initial_snake_chain.
Qed.

(** X3: on a grid of at least 6 by 3 cells the body of a reachable state
    is one connected path: every segment is next to the segment behind
    it, one cell away in its row or in its column. *)
Theorem reachable_snake_connected (w h : int) st (i : nat) (a b : Vec2) :
  6 <= Int.signed w -> 3 <= Int.signed h ->
  reachable w h st ->
  snake_ st !! i = Some a -> snake_ st !! S i = Some b ->
  neighbours a b.
Proof.
  intros Hw Hh Hreach Ha Hb.
  pose proof (reachable_inside w h st Hw Hh Hreach) as [Hin _].
  destruct (chain_lookup _ i a b (reachable_chain w h st Hreach) Ha Hb) as [d ->].
  assert (Hi : interior st (advance d b)).
  { apply (proj1 (list.Forall_forall _ _) Hin). eapply list_elem_of_lookup_2. exact Ha. }
  pose proof (advance_interior st d b Hi) as E. unfold coords in E.
  injection E as Ex Ey. unfold neighbours. rewrite Ex, Ey.
  destruct d; cbn [offset fst snd]; lia.
Qed.

(** X4: in every reachable state the tick interval is fixed by the length
    of the snake: it is 110 ms less 2 ms for every segment beyond the
    first three, and 55 ms once that would be lower. *)
Theorem reachable_tick_by_length (w h : int) st :
  reachable w h st ->
  Int.signed (tickMs_ st)
  = Z.max 55 (110 - 2 * (Z.of_nat (length (snake_ st)) - 3)).
Proof.
  induction 1 as [fuel g st E | fuel st st' Hr IH E | fuel c st st' _ IH E].
  - unfold newGame in E. apply reset_Ok in E as (p & g' & _ & ->).
    cbn [tickMs_ snake_]. reflexivity.
  - apply reachable_game_inv in Hr as (_ & _ & _ & Hlen & _ & Htick).
    apply step_Ok in E.
    destruct E as [_ -> | head rest _ _ _ -> | head rest p g' _ Hs _ _ _ _ ->
                  | head rest _ Hs _ _ _ ->];
      cbn [snake_ tickMs_ with_gameOver with_snake]; try exact IH.
    + cbn [length]. unfold Int.max, Int.sub. int_simpl.
      destruct (Z.ltb_spec 55 (Int.signed (tickMs_ st) - 2)); int_simpl; lia.
    + rewrite IH, Hs. cbn [length]. now rewrite length_removelast_cons.
  - apply handleInput_Ok in E as [-> | [-> | [[_ E] | [d ->]]]]; try exact IH.
    apply reset_Ok in E as (p & g' & _ & ->). cbn [tickMs_ snake_]. reflexivity.
Qed.

(** *** More on [handleInput] *)

Lemma handleInput_key fuel st (c : ascii) (d' : Dir) :
  c ∈ keys_of d' ->
  handleInput fuel c st
  = if negb (isOpposite (dir_ st) d') then Ok (with_dir st d') else Ok st.
Proof.
  intros Hkey.
  destruct d'; cbn [keys_of] in Hkey;
    repeat (apply elem_of_cons in Hkey as [->|Hkey]); try (now inversion Hkey);
    reflexivity.
Qed.

Lemma isOpposite_same (d : Dir) : isOpposite d d = false.
Proof. now destruct d. Qed.

(** X5: a key that is none of q, r, w, a, s, d in either case, and the
    value 0 that stands for no key, leave the whole state as it is. *)
Theorem handleInput_ignores_other_keys fuel st (c : ascii) :
  c ∉ known_keys -> handleInput fuel c st = Ok st.
Proof.
  intros Hc. unfold handleInput.
  destruct (Ascii.eqb c zero); [reflexivity|].
  assert (Hne : forall k, k ∈ known_keys -> Ascii.eqb c k = false).
  { intros k Hk. apply Ascii.eqb_neq. intros ->. now apply Hc. }
  unfold known_keys in Hne.
  rewrite !Hne by (repeat ((now left) || right)).
  cbn. rewrite isOpposite_same. cbn. now rewrite with_dir_same.
Qed.

Lemma handleInput_returns fuel st (c : ascii) :
  ~ ((c = "r"%char \/ c = "R"%char) /\ gameOver_ st = true) ->
  exists st', handleInput fuel c st = Ok st'
              /\ (st' = st \/ st' = with_quit st true \/ exists d, st' = with_dir st d).
Proof.
  intros Hnot. unfold handleInput.
  destruct (Ascii.eqb c zero); [eauto|].
  destruct (Ascii.eqb c "q" || Ascii.eqb c "Q"); [eauto|].
  destruct ((Ascii.eqb c "r" || Ascii.eqb c "R") && gameOver_ st) eqn:E.
  - exfalso. apply Hnot. apply andb_prop in E as [E1 E2]. split; [|exact E2].
    apply orb_prop in E1 as [E1|E1]; apply Ascii.eqb_eq in E1; auto.
  - cbv zeta. match goal with |- context [negb ?b] => destruct (negb b) end; eauto 6.
Qed.

(** X6: unless it restarts a finished game, [handleInput] returns
    whatever the fuel and changes at most the direction and the quit
    flag; the quit flag is set by q or Q and by nothing else, and is never
    cleared. *)
Theorem handleInput_touches_only_dir_and_quit fuel st (c : ascii) :
  ~ ((c = "r"%char \/ c = "R"%char) /\ gameOver_ st = true) ->
  exists (d : Dir) (q : bool),
    handleInput fuel c st
    = Ok (mkGame (w_ st) (h_ st) (rnd_ st) (snake_ st) (food_ st) d q
            (gameOver_ st) (score_ st) (tickMs_ st))
    /\ (q = true <-> quit_ st = true \/ c = "q"%char \/ c = "Q"%char).
Proof.
  intros Hnot. unfold handleInput.
  assert (Hst : st = mkGame (w_ st) (h_ st) (rnd_ st) (snake_ st) (food_ st) (dir_ st)
                       (quit_ st) (gameOver_ st) (score_ st) (tickMs_ st))
    by now destruct st.
  destruct (Ascii.eqb_spec c zero) as [->|Hz].
  { exists (dir_ st), (quit_ st). split; [now rewrite <- Hst|].
    split; [auto | intros [?|[?|?]]; [assumption | discriminate | discriminate]]. }
  destruct (Ascii.eqb_spec c "q") as [->|Hq].
  { exists (dir_ st), true. split; [reflexivity | tauto]. }
  destruct (Ascii.eqb_spec c "Q") as [->|HQ].
  { exists (dir_ st), true. split; [reflexivity | tauto]. }
  cbn [orb].
  assert (Hr : (Ascii.eqb c "r" || Ascii.eqb c "R") && gameOver_ st = false).
  { destruct ((Ascii.eqb c "r" || Ascii.eqb c "R") && gameOver_ st) eqn:E; [|reflexivity].
    exfalso. apply Hnot. apply andb_prop in E as [E1 E2]. split; [|exact E2].
    apply orb_prop in E1 as [E1|E1]; apply Ascii.eqb_eq in E1; auto. }
  rewrite Hr. cbv zeta.
  match goal with |- context [negb (isOpposite _ ?n)] =>
    destruct (negb (isOpposite (dir_ st) n)); [exists n | exists (dir_ st)] end;
    exists (quit_ st); (split; [first [reflexivity | now rewrite <- Hst] | tauto]).
Qed.

Lemma step_gameOver_stays fuel st : gameOver_ st = true -> step fuel st = Ok st.
Proof. intros Hover. unfold step. now rewrite Hover. Qed.

(** X7: a finished game stays frozen until r or R is pressed: whatever
    ticks and other keys follow, in any order, the run returns with the
    body, the food, the score, the tick interval and the generator as they
    were and [gameOver_] still set. *)
Theorem play_gameOver_frozen fuel (evs : list event) st :
  gameOver_ st = true ->
  Key "r" ∉ evs -> Key "R" ∉ evs ->
  exists (d : Dir) (q : bool),
    play fuel evs st
    = Ok (mkGame (w_ st) (h_ st) (rnd_ st) (snake_ st) (food_ st) d q true
            (score_ st) (tickMs_ st)).
Proof.
  revert st. induction evs as [|e evs IH]; intros st Hover Hr HR.
  - exists (dir_ st), (quit_ st). cbn. rewrite <- Hover. now destruct st.
  - assert (Hr' : Key "r" ∉ evs) by (intros Hin; apply Hr; now right).
    assert (HR' : Key "R" ∉ evs) by (intros Hin; apply HR; now right).
    cbn [play]. destruct e as [|c]; cbn [apply_event].
    + rewrite step_gameOver_stays by exact Hover. cbn. now apply IH.
    + destruct (handleInput_returns fuel st c) as (st' & E & Hshape).
      { intros [[-> | ->] _]; [apply Hr | apply HR]; left. }
      rewrite E. cbn.
      assert (Hsame : w_ st' = w_ st /\ h_ st' = h_ st /\ rnd_ st' = rnd_ st
                      /\ snake_ st' = snake_ st /\ food_ st' = food_ st
                      /\ gameOver_ st' = true /\ score_ st' = score_ st
                      /\ tickMs_ st' = tickMs_ st).
      { destruct Hshape as [-> | [-> | [d ->]]]; cbn; rewrite Hover; auto 10. }
      destruct Hsame as (Ew & Eh & Eg & Es & Ef & Eo & Esc & Et).
      destruct (IH st' Eo Hr' HR') as (d' & q' & ->).
      exists d', q'. now rewrite Ew, Eh, Eg, Es, Ef, Esc, Et.
Qed.

Lemma advance_opposite (d : Dir) (p : Vec2) : advance (opposite d) (advance d p) = p.
Proof.
  rewrite !advance_repr. cbn [x y]. destruct p as [px py]. cbn [x y].
  f_equal; apply Int.signed_inj; cbn [Int.signed Int.repr];
    rewrite Int.wrap_wrap_add;
    (replace (Int.signed px + fst (offset d) + fst (offset (opposite d)))
       with (Int.signed px) by (destruct d; cbn; lia)) ||
    (replace (Int.signed py + snd (offset d) + snd (offset (opposite d)))
       with (Int.signed py) by (destruct d; cbn; lia));
    apply Int.wrap_small, Int.signed_range.
Qed.

(** X8: the reversal guard compares a key with the direction last asked
    for, not with the direction last moved in.  When the head has just
    moved in the current direction, a key for a perpendicular direction
    followed, before the next tick, by the key for the opposite direction
    is accepted, and the next [step] runs the head into the segment behind
    it: the game is over with the body unchanged. *)
Theorem reversal_by_two_keys fuel st (head neck : Vec2) (rest : list Vec2)
    (d1 : Dir) (k1 k2 : ascii) :
  gameOver_ st = false ->
  snake_ st = head :: neck :: rest ->
  head = advance (dir_ st) neck ->
  d1 <> dir_ st -> d1 <> opposite (dir_ st) ->
  k1 ∈ keys_of d1 -> k2 ∈ keys_of (opposite (dir_ st)) ->
  play fuel [Key k1; Key k2; Tick] st
  = Ok (mkGame (w_ st) (h_ st) (rnd_ st) (snake_ st) (food_ st) (opposite (dir_ st))
          (quit_ st) true (score_ st) (tickMs_ st)).
Proof.
  intros Hplay Hsnake Hhead Hd1 Hd1' Hk1 Hk2.
  cbn [play apply_event].
  rewrite (handleInput_key fuel st k1 d1 Hk1).
  replace (isOpposite (dir_ st) d1) with false
    by (destruct (dir_ st), d1; cbn in *; congruence).
  cbn [negb mbind result_bind].
  rewrite (handleInput_key fuel _ k2 _ Hk2). cbn [dir_ with_dir].
  replace (isOpposite d1 (opposite (dir_ st))) with false
    by (destruct (dir_ st), d1; cbn in *; congruence).
  cbn [negb mbind result_bind].
  unfold step. cbn [gameOver_ snake_ dir_ with_dir]. rewrite Hplay, Hsnake.
  assert (E : advance (opposite (dir_ st)) head = neck)
    by (rewrite Hhead; apply advance_opposite).
  rewrite E. unfold hitSelf. cbn [snake_ with_dir]. rewrite Hsnake.
  replace (hitSelf_loop (head :: neck :: rest) neck) with true
    by (symmetry; apply hitSelf_loop_elem; right; left).
  rewrite orb_true_r. unfold with_gameOver. cbn. now rewrite Hsnake.
Qed.

(** *** More on [step] *)

(** X9: after a [step] that leaves the game running, the new head is the
    old head moved by the unit offset of the direction and every other
    segment sits where the segment ahead of it was; the length is kept, or
    grows by one when the new head is the old food. *)
Theorem step_body_follows_head fuel st st' :
  gameOver_ st = false -> step fuel st = Ok st' -> gameOver_ st' = false ->
  exists (head : Vec2) (rest : list Vec2),
    snake_ st = head :: rest
    /\ snake_ st' !! 0%nat = Some (advance (dir_ st) head)
    /\ (forall (i : nat) (a : Vec2),
          snake_ st' !! S i = Some a -> snake_ st !! i = Some a)
    /\ length (snake_ st')
       = if decide (advance (dir_ st) head = food_ st)
         then S (length (snake_ st)) else length (snake_ st).
Proof.
  intros Hplay E Hplay'. apply step_Ok in E.
  destruct E as [Hover _ | head rest _ _ _ -> | head rest p g' _ Hs _ _ Hfood _ ->
                | head rest _ Hs _ _ Hfood ->].
  - congruence.
  - discriminate.
  - exists head, rest. cbn [snake_]. split; [exact Hs|]. split; [reflexivity|].
    split; [intros i a Ha; exact Ha|].
    destruct (decide (advance (dir_ st) head = food_ st)); [reflexivity | contradiction].
  - exists head, rest. cbn [snake_ with_snake]. split; [exact Hs|]. split; [reflexivity|].
    split.
    + intros i a Ha. cbn in Ha. rewrite removelast_firstn_len in Ha.
      apply lookup_take_Some in Ha as [Ha _]. exact Ha.
    + destruct (decide (advance (dir_ st) head = food_ st)); [contradiction|].
      rewrite Hs. cbn [length]. now rewrite length_removelast_cons.
Qed.

(** X10: a returning [step] never changes the grid, the direction or the
    quit flag and never shortens the snake; the body grows by at most one
    segment, and unless it grows the score, the tick interval, the food
    and the generator are as before. *)
Theorem step_keeps_or_grows fuel st st' :
  step fuel st = Ok st' ->
  w_ st' = w_ st /\ h_ st' = h_ st /\ dir_ st' = dir_ st /\ quit_ st' = quit_ st
  /\ (length (snake_ st') = length (snake_ st)
      /\ score_ st' = score_ st /\ tickMs_ st' = tickMs_ st
      /\ food_ st' = food_ st /\ rnd_ st' = rnd_ st
      \/ length (snake_ st') = S (length (snake_ st))).
Proof.
  intros E. apply step_Ok in E.
  destruct E as [_ -> | head rest _ _ _ -> | head rest p g' _ _ _ _ _ _ ->
                | head rest _ Hs _ _ _ ->];
    cbn [w_ h_ dir_ quit_ snake_ score_ tickMs_ food_ rnd_ with_gameOver with_snake];
    repeat (split; [reflexivity|]).
  - left. auto.
  - left. auto.
  - right. reflexivity.
  - left. rewrite Hs. cbn [length]. rewrite length_removelast_cons. auto.
Qed.

(** *** More on [spawnFood] *)

(** X11: the food loop returns the first free cell the generator
    proposes: if the first [n] proposals lie on the snake and the next one
    does not, any fuel above [n] gives that cell, with the generator left
    as those [n + 1] iterations leave it. *)
Theorem spawnFood_loop_first_free (n fuel : nat) (w h : int) (segs : list Vec2) (g : R) :
  grid_ok w h ->
  (forall k, (k < n)%nat -> fst (try_once w h (after_tries k w h g)) ∈ segs) ->
  fst (try_once w h (after_tries n w h g)) ∉ segs ->
  (n < fuel)%nat ->
  spawnFood_loop fuel w h segs g = Ok (try_once w h (after_tries n w h g)).
Proof.
  intros Hgrid. revert fuel g. induction n as [|n IH]; intros fuel g Hbusy Hfree Hfuel;
    (destruct fuel as [|fuel]; [lia|]); rewrite spawnFood_loop_step by exact Hgrid.
  - cbn [after_tries] in *. apply spawnFood_free_not_elem in Hfree. now rewrite Hfree.
  - assert (H0 : spawnFood_free segs (fst (try_once w h g)) = false).
    { destruct (spawnFood_free segs (fst (try_once w h g))) eqn:E; [|reflexivity].
      apply spawnFood_free_not_elem in E. exfalso. apply E.
      apply (Hbusy 0%nat). lia. }
    rewrite H0. cbn [after_tries]. apply IH; [|exact Hfree|lia].
    intros k Hk. apply (Hbusy (S k)). lia.
Qed.

(** X12: on a board whose interior the snake covers completely the food
    loop has no way out: whatever the generator draws and however much
    fuel it is given, [spawnFood] is still looping. *)
Theorem spawnFood_full_board_loops fuel st :
  3 <= Int.signed (w_ st) -> 3 <= Int.signed (h_ st) ->
  (forall p, interior st p -> p ∈ snake_ st) ->
  spawnFood fuel st = OutOfFuel.
Proof.
  intros Hw Hh Hfull.
  pose proof (Int.signed_range (w_ st)) as Hwr.
  pose proof (Int.signed_range (h_ st)) as Hhr.
  unfold Int.min_signed, Int.max_signed in *.
  assert (Hgrid : grid_ok (w_ st) (h_ st)).
  { split; unfold Int.leb, Int.sub; int_simpl; apply Z.leb_le; lia. }
  unfold spawnFood.
  destruct (spawnFood_loop_defined fuel (w_ st) (h_ st) (snake_ st) (rnd_ st) Hgrid)
    as [[[p g] E] | ->]; [|reflexivity].
  exfalso. apply spawnFood_loop_Ok in E as (Hx & Hy & Hfree).
  rewrite sub_two_small in Hx by (unfold Int.min_signed; lia).
  rewrite sub_two_small in Hy by (unfold Int.min_signed; lia).
  apply Hfree, Hfull. split; assumption.
Qed.

(** *** What [buildBuffer] draws *)

Lemma buf_write_cell (buf buf' : Buffer) (r c : Z) (ch : ascii) (r' c' : Z) :
  buf_write buf r c ch = Ok buf' ->
  cell buf' r' c' = if decide (r = r' /\ c = c') then Some ch else cell buf r' c'.
Proof.
  unfold buf_write.
  destruct (Z.leb_spec 0 r) as [Hr|Hr]; [|discriminate].
  destruct (Z.leb_spec 0 c) as [Hc|Hc]; [|discriminate]. cbn [andb].
  destruct (buf !! Z.to_nat r) as [line|] eqn:Hline; [|discriminate].
  destruct (Nat.ltb_spec (Z.to_nat c) (length line)) as [Hlt|Hge]; [|discriminate].
  intros [= <-]. unfold cell.
  destruct (Z.leb_spec 0 r') as [Hr'|Hr']; cbn [andb];
    [|destruct (decide (r = r' /\ c = c')) as [[? ?]|]; [lia | reflexivity]].
  destruct (Z.leb_spec 0 c') as [Hc'|Hc'];
    [|destruct (decide (r = r' /\ c = c')) as [[? ?]|]; [lia | reflexivity]].
  pose proof (lookup_lt_Some _ _ _ Hline) as Hrow.
  destruct (decide (Z.to_nat r = Z.to_nat r')) as [Er|Er].
  - rewrite <- Er, list_lookup_insert_eq by exact Hrow. rewrite Hline. cbn.
    destruct (decide (Z.to_nat c = Z.to_nat c')) as [Ec|Ec].
    + rewrite <- Ec, list_lookup_insert_eq by exact Hlt.
      destruct (decide (r = r' /\ c = c')) as [|Hn]; [reflexivity|].
      exfalso. apply Hn. lia.
    + rewrite list_lookup_insert_ne by exact Ec.
      destruct (decide (r = r' /\ c = c')) as [[? ?]|]; [|reflexivity].
      exfalso. apply Ec. congruence.
  - rewrite list_lookup_insert_ne by exact Er.
    destruct (decide (r = r' /\ c = c')) as [[? ?]|]; [|reflexivity].
    exfalso. apply Er. congruence.
Qed.

(** After a sequence of writes a cell shows what the last write at it
    left, or what it showed before if none of them was at it. *)
Lemma apply_writes_cell (ws : list (Z * Z * ascii)) (buf buf' : Buffer) (r c : Z) :
  apply_writes ws buf = Ok buf' ->
  cell buf' r c = match last_write ws r c with
                  | Some ch => Some ch
                  | None => cell buf r c
                  end.
Proof.
  revert buf. induction ws as [|[[r0 c0] ch0] ws IH]; intros buf; cbn [apply_writes last_write].
  - now intros [= <-].
  - destruct (buf_write buf r0 c0 ch0) as [buf1| | |] eqn:E; cbn; try discriminate.
    intros E'. rewrite (IH buf1 E').
    destruct (last_write ws r c); [reflexivity|].
    apply (buf_write_cell _ _ _ _ _ r c) in E. rewrite E.
    now destruct (decide (r0 = r /\ c0 = c)).
Qed.

Lemma apply_writes_app (ws1 ws2 : list (Z * Z * ascii)) (buf : Buffer) :
  apply_writes (ws1 ++ ws2) buf = apply_writes ws1 buf ≫= apply_writes ws2.
Proof.
  revert buf. induction ws1 as [|[[r c] ch] ws1 IH]; intros buf; cbn; [reflexivity|].
  destruct (buf_write buf r c ch); cbn; auto.
Qed.

Lemma last_write_app (ws1 ws2 : list (Z * Z * ascii)) (r c : Z) :
  last_write (ws1 ++ ws2) r c
  = match last_write ws2 r c with
    | Some ch => Some ch
    | None => last_write ws1 r c
    end.
Proof.
  induction ws1 as [|[[r0 c0] ch0] ws1 IH]; cbn [app last_write].
  - now destruct (last_write ws2 r c).
  - rewrite IH. now destruct (last_write ws2 r c).
Qed.

Lemma last_write_none (ws : list (Z * Z * ascii)) (r c : Z) :
  (forall ch, (r, c, ch) ∉ ws) -> last_write ws r c = None.
Proof.
  induction ws as [|[[r0 c0] ch0] ws IH]; intros Hno; cbn [last_write]; [reflexivity|].
  rewrite IH by (intros ch Hin; apply (Hno ch); now right).
  destruct (decide (r0 = r /\ c0 = c)) as [[-> ->]|]; [|reflexivity].
  exfalso. apply (Hno ch0). left.
Qed.

Lemma last_write_elem (ws : list (Z * Z * ascii)) (r c : Z) (ch : ascii) :
  last_write ws r c = Some ch -> (r, c, ch) ∈ ws.
Proof.
  induction ws as [|[[r0 c0] ch0] ws IH]; cbn [last_write]; [discriminate|].
  destruct (last_write ws r c) as [later|].
  - intros [= ->]. right. now apply IH.
  - destruct (decide (r0 = r /\ c0 = c)) as [[-> ->]|]; [|discriminate].
    intros [= ->]. left.
Qed.

Lemma last_write_some (ws : list (Z * Z * ascii)) (r c : Z) (ch : ascii) :
  (r, c, ch) ∈ ws -> exists ch', last_write ws r c = Some ch'.
Proof.
  induction ws as [|[[r0 c0] ch0] ws IH]; intros Hin; [inversion Hin|].
  cbn [last_write]. destruct (last_write ws r c) as [later|] eqn:E; [eauto|].
  apply elem_of_cons in Hin as [[= <- <- <-] | Hin].
  - destruct (decide (r = r /\ c = c)) as [|Hn]; [eauto | exfalso; apply Hn; auto].
  - destruct (IH Hin) as [ch' Hch']. discriminate.
Qed.

(** A cell written with one character only, at least once, shows it. *)
Lemma last_write_only (ws : list (Z * Z * ascii)) (r c : Z) (ch : ascii) :
  (r, c, ch) ∈ ws -> (forall ch', (r, c, ch') ∈ ws -> ch' = ch) ->
  last_write ws r c = Some ch.
Proof.
  intros Hin Hall. destruct (last_write_some ws r c ch Hin) as [ch' E].
  rewrite E. f_equal. apply Hall. now apply last_write_elem.
Qed.

Lemma for_range_writes (n : nat) (i : Z) (body : Z -> Buffer -> result Buffer)
    (f : Z -> list (Z * Z * ascii)) (buf : Buffer) :
  (forall j b, body j b = apply_writes (f j) b) ->
  for_range n i body buf = apply_writes (seqZ i (Z.of_nat n) ≫= f) buf.
Proof.
  intros Hbody. revert i buf. induction n as [|n IH]; intros i buf.
  - reflexivity.
  - rewrite seqZ_cons by lia. cbn [for_range mbind list_bind].
    rewrite apply_writes_app, Hbody.
    destruct (apply_writes (f i) buf) as [b| | |]; cbn; try reflexivity.
    rewrite IH. do 3 f_equal; lia.
Qed.

Lemma draw_snake_writes (segs : list Vec2) (i : nat) (buf : Buffer) :
  draw_snake segs i buf = apply_writes (snake_writes segs i) buf.
Proof.
  revert i buf. induction segs as [|p rest IH]; intros i buf; cbn; [reflexivity|].
  destruct (buf_write buf _ _ _); cbn; auto.
Qed.

Lemma draw_hud_writes (hud : list ascii) (i : Z) (w : int) (buf : Buffer) :
  draw_hud hud i w buf = apply_writes (hud_writes hud i w) buf.
Proof.
  revert i buf. induction hud as [|c rest IH]; intros i buf; cbn; [reflexivity|].
  destruct (i + 2 <? Int.signed w); [|reflexivity]. cbn.
  destruct (buf_write buf _ _ _); cbn; auto.
Qed.

Lemma draw_msg_writes (msg : list ascii) (i : Z) (start row w : int) (buf : Buffer) :
  draw_msg msg i start row w buf = apply_writes (msg_writes msg i start row w) buf.
Proof.
  revert i buf. induction msg as [|c rest IH]; intros i buf; cbn; [reflexivity|].
  destruct (Int.ltb _ _); [|reflexivity]. cbn.
  destruct (buf_write buf _ _ _); cbn; auto.
Qed.

(** [buildBuffer] is the blank frame with its writes applied in order. *)
Lemma buildBuffer_writes st :
  0 <= Int.signed (w_ st) -> 0 <= Int.signed (h_ st) ->
  buildBuffer st
  = apply_writes (frame_writes st)
      (replicate (Z.to_nat (Int.signed (h_ st)))
         (replicate (Z.to_nat (Int.signed (w_ st))) " "%char)).
Proof.
  intros Hw Hh. unfold buildBuffer, frame_writes.
  replace ((Int.signed (w_ st) <? 0) || (Int.signed (h_ st) <? 0)) with false
    by (symmetry; apply orb_false_intro; apply Z.ltb_ge; lia).
  cbv zeta.
  rewrite (for_range_writes _ _ _
             (fun c => [(0, c, "#"%char);
                        (Int.signed (Int.sub (h_ st) (Int.repr 1)), c, "#"%char)]))
    by (intros j b; cbn; destruct (buf_write b 0 j "#"); cbn; try reflexivity;
        destruct (buf_write _ _ _ _); reflexivity).
  rewrite apply_writes_app, !Z2Nat.id by lia.
  destruct (apply_writes _ _) as [b1| | |]; cbn [mbind result_bind]; try reflexivity.
  rewrite (for_range_writes _ _ _
             (fun r => [(r, 0, "#"%char);
                        (r, Int.signed (Int.sub (w_ st) (Int.repr 1)), "#"%char)]))
    by (intros j b; cbn; destruct (buf_write b j 0 "#"); cbn; try reflexivity;
        destruct (buf_write _ _ _ _); reflexivity).
  rewrite apply_writes_app, !Z2Nat.id by lia.
  destruct (apply_writes _ b1) as [b2| | |]; cbn [mbind result_bind]; try reflexivity.
  rewrite apply_writes_app. cbn [apply_writes].
  destruct (buf_write b2 _ _ _) as [b3| | |]; cbn [mbind result_bind]; try reflexivity.
  rewrite draw_snake_writes, apply_writes_app.
  destruct (apply_writes _ b3) as [b4| | |]; cbn [mbind result_bind]; try reflexivity.
  rewrite draw_hud_writes, apply_writes_app.
  destruct (apply_writes _ b4) as [b5| | |]; cbn [mbind result_bind]; try reflexivity.
  destruct (gameOver_ st); [|reflexivity].
  now rewrite draw_msg_writes.
Qed.

Lemma border_rows_elem (w : Z) (hm1 : Z) (r c : Z) (ch : ascii) :
  (r, c, ch) ∈ (seqZ 0 w ≫= fun c => [(0, c, "#"%char); (hm1, c, "#"%char)]) <->
  ch = "#"%char /\ (r = 0 \/ r = hm1) /\ 0 <= c < w.
Proof.
  rewrite list_elem_of_bind. split.
  - intros (j & Hin & Hj). apply elem_of_seqZ in Hj.
    apply elem_of_cons in Hin as [[= -> -> ->] | Hin]; [split; [reflexivity|]; lia|].
    apply elem_of_cons in Hin as [[= -> -> ->] | Hin]; [split; [reflexivity|]; lia|].
    inversion Hin.
  - intros (-> & Hr & Hc). exists c. split; [|apply elem_of_seqZ; lia].
    destruct Hr as [-> | ->]; [left | right; left].
Qed.

Lemma border_cols_elem (h : Z) (wm1 : Z) (r c : Z) (ch : ascii) :
  (r, c, ch) ∈ (seqZ 0 h ≫= fun r => [(r, 0, "#"%char); (r, wm1, "#"%char)]) <->
  ch = "#"%char /\ (c = 0 \/ c = wm1) /\ 0 <= r < h.
Proof.
  rewrite list_elem_of_bind. split.
  - intros (j & Hin & Hj). apply elem_of_seqZ in Hj.
    apply elem_of_cons in Hin as [[= -> -> ->] | Hin]; [split; [reflexivity|]; lia|].
    apply elem_of_cons in Hin as [[= -> -> ->] | Hin]; [split; [reflexivity|]; lia|].
    inversion Hin.
  - intros (-> & Hc & Hr). exists r. split; [|apply elem_of_seqZ; lia].
    destruct Hc as [-> | ->]; [left | right; left].
Qed.

Lemma snake_writes_elem (segs : list Vec2) (i : nat) (r c : Z) (ch : ascii) :
  (r, c, ch) ∈ snake_writes segs i ->
  exists p, p ∈ segs /\ r = Int.signed (y p) /\ c = Int.signed (x p).
Proof.
  revert i. induction segs as [|p rest IH]; intros i Hin; cbn in Hin; [inversion Hin|].
  apply elem_of_cons in Hin as [[= -> -> _] | Hin].
  - exists p. split; [left | auto].
  - destruct (IH _ Hin) as (q & Hq & Hrc). exists q. split; [now right | exact Hrc].
Qed.

Lemma snake_writes_body (segs : list Vec2) (i : nat) (r c : Z) (ch : ascii) :
  (r, c, ch) ∈ snake_writes segs (S i) -> ch = "o"%char.
Proof.
  revert i. induction segs as [|p rest IH]; intros i Hin; cbn in Hin; [inversion Hin|].
  apply elem_of_cons in Hin as [[= _ _ ->] | Hin]; [reflexivity|].
  now apply (IH (S i)).
Qed.

Lemma snake_writes_has (segs : list Vec2) (i : nat) (p : Vec2) :
  p ∈ segs -> exists ch, (Int.signed (y p), Int.signed (x p), ch) ∈ snake_writes segs i.
Proof.
  revert i. induction segs as [|q rest IH]; intros i Hin; [inversion Hin|].
  apply elem_of_cons in Hin as [-> | Hin]; cbn [snake_writes].
  - eexists. left.
  - destruct (IH (S i) Hin) as [ch Hch]. exists ch. now right.
Qed.

Lemma hud_writes_elem (hud : list ascii) (i : Z) (w : int) (r c : Z) (ch : ascii) :
  (r, c, ch) ∈ hud_writes hud i w <->
  r = 0 /\ exists j : nat, hud !! j = Some ch /\ c = i + Z.of_nat j + 2 /\ c < Int.signed w.
Proof.
  revert i. induction hud as [|a rest IH]; intros i; cbn [hud_writes].
  - split; [intros Hin; inversion Hin | intros (_ & j & Hj & _); discriminate].
  - destruct (Z.ltb_spec (i + 2) (Int.signed w)) as [Hlt|Hge].
    + rewrite elem_of_cons, IH. split.
      * intros [[= -> -> ->] | (-> & j & Hj & -> & Hc)].
        -- split; [reflexivity|]. exists 0%nat. split; [reflexivity|]. lia.
        -- split; [reflexivity|]. exists (S j). split; [exact Hj|]. lia.
      * intros (-> & [|j] & Hj & -> & Hc).
        -- left. cbn in Hj. injection Hj as ->. f_equal. f_equal. lia.
        -- right. split; [reflexivity|]. exists j. split; [exact Hj|]. lia.
    + split; [intros Hin; inversion Hin|]. intros (_ & j & _ & -> & Hc). lia.
Qed.

Lemma msg_writes_elem (msg : list ascii) (i : Z) (start row w : int)
    (r c : Z) (ch : ascii) :
  0 <= Int.signed start -> 0 <= i ->
  Int.signed start + i + Z.of_nat (length msg) <= Int.max_signed ->
  Int.min_signed < Int.signed w ->
  (r, c, ch) ∈ msg_writes msg i start row w <->
  r = Int.signed row
  /\ exists j : nat, msg !! j = Some ch /\ c = Int.signed start + i + Z.of_nat j
                     /\ c < Int.signed w - 1.
Proof.
  intros Hstart. revert i. induction msg as [|a rest IH]; intros i Hi Hfit Hw;
    cbn [msg_writes].
  - split; [intros Hin; inversion Hin | intros (_ & j & Hj & _); discriminate].
  - cbn [length] in Hfit. unfold Int.max_signed, Int.min_signed in *.
    pose proof (Int.signed_range w) as Hwr. unfold Int.min_signed, Int.max_signed in Hwr.
    unfold Int.ltb, Int.add, Int.sub. int_simpl.
    destruct (Z.ltb_spec (Int.signed start + i) (Int.signed w - 1)) as [Hlt|Hge].
    + rewrite elem_of_cons, IH by (unfold Int.max_signed, Int.min_signed; lia). split.
      * intros [[= -> -> ->] | (-> & j & Hj & -> & Hc)].
        -- split; [reflexivity|]. exists 0%nat. split; [reflexivity|]. lia.
        -- split; [reflexivity|]. exists (S j). split; [exact Hj|]. lia.
      * intros (-> & [|j] & Hj & -> & Hc).
        -- left. cbn in Hj. injection Hj as ->. f_equal. f_equal. lia.
        -- right. split; [reflexivity|]. exists j. split; [exact Hj|]. lia.
    + split; [intros Hin; inversion Hin|]. intros (_ & j & _ & -> & Hc). lia.
Qed.

(** Where the message goes on a grid of at least 3 by 3 cells. *)
Lemma msg_place (w h : int) :
  3 <= Int.signed w -> 3 <= Int.signed h ->
  1 <= Int.signed (msg_start w)
  /\ Int.signed (msg_start w) = Z.max 1 ((Int.signed w - 30) / 2)
  /\ Int.signed (msg_row h) = Int.signed h / 2
  /\ 1 <= Int.signed h / 2 <= Int.signed h - 2.
Proof.
  intros Hw Hh.
  pose proof (Int.signed_range w) as Hwr. pose proof (Int.signed_range h) as Hhr.
  unfold Int.min_signed, Int.max_signed in *.
  unfold msg_start, msg_row. change (length gameOver_text) with 30%nat.
  pose proof (quot_two_bounds (Int.sub w (Int.repr (Z.of_nat 30)))) as Hq.
  unfold Int.max, Int.divs, Int.sub in *. revert Hq. int_simpl. intros Hq.
  rewrite (Z.quot_div_nonneg (Int.signed h) 2) by lia.
  assert (Hh2 : 1 <= Int.signed h / 2 <= Int.signed h - 2).
  { split; [apply Z.div_le_lower_bound; lia|].
    apply Z.lt_succ_r, Z.div_lt_upper_bound; lia. }
  assert (Hmax : Z.max 1 ((Int.signed w - 30) / 2)
                 = if 1 <? Z.quot (Int.signed w - Z.of_nat 30) 2
                   then Z.quot (Int.signed w - Z.of_nat 30) 2 else 1).
  { change (Z.of_nat 30) with 30.
    destruct (Z_le_gt_dec 30 (Int.signed w)) as [Hge|Hlt].
    - rewrite Z.quot_div_nonneg by lia.
      destruct (Z.ltb_spec 1 ((Int.signed w - 30) / 2)); lia.
    - pose proof (Z.quot_rem' (Int.signed w - 30) 2) as Eq.
      pose proof (Z.rem_bound_abs (Int.signed w - 30) 2 ltac:(lia)) as Hr.
      pose proof (Z.rem_nonpos (Int.signed w - 30) 2 ltac:(lia) ltac:(lia)) as Hs.
      assert ((Int.signed w - 30) / 2 < 0) by (apply Z.div_lt_upper_bound; lia).
      destruct (Z.ltb_spec 1 (Z.quot (Int.signed w - 30) 2)); lia. }
  int_simpl.
  destruct (Z.ltb_spec 1 (Z.quot (Int.signed w - Z.of_nat 30) 2));
    int_simpl; repeat split; try lia.
Qed.

(** A cell shows the character of the last part of the frame's writes
    that touches it. *)
Lemma frame_shows st (buf : Buffer) (A B C : list (Z * Z * ascii)) (r c : Z) (ch : ascii) :
  0 <= Int.signed (w_ st) -> 0 <= Int.signed (h_ st) ->
  buildBuffer st = Ok buf ->
  frame_writes st = A ++ B ++ C ->
  (r, c, ch) ∈ B -> (forall ch', (r, c, ch') ∈ B -> ch' = ch) ->
  (forall ch', (r, c, ch') ∉ C) ->
  cell buf r c = Some ch.
Proof.
  intros Hw Hh Hbuf Hparts Hin Honly Hnone.
  rewrite buildBuffer_writes in Hbuf by assumption.
  rewrite (apply_writes_cell _ _ _ r c Hbuf), Hparts, !last_write_app.
  rewrite (last_write_none C r c Hnone).
  now rewrite (last_write_only B r c ch Hin Honly).
Qed.

(** What the food, the snake, the HUD and the message write. *)
Lemma frame_inner_writes st (r c : Z) (ch : ascii) :
  3 <= Int.signed (w_ st) -> 3 <= Int.signed (h_ st) ->
  (r, c, ch)
    ∈ [(Int.signed (y (food_ st)), Int.signed (x (food_ st)), "*"%char)]
      ++ snake_writes (snake_ st) 0
      ++ hud_writes (hud_text st) 0 (w_ st)
      ++ (if gameOver_ st
          then msg_writes gameOver_text 0 (msg_start (w_ st)) (msg_row (h_ st)) (w_ st)
          else []) ->
  (r = Int.signed (y (food_ st)) /\ c = Int.signed (x (food_ st)) /\ ch = "*"%char)
  \/ (exists p, p ∈ snake_ st /\ r = Int.signed (y p) /\ c = Int.signed (x p))
  \/ (r = 0 /\ exists j : nat,
        hud_text st !! j = Some ch /\ c = Z.of_nat j + 2 /\ c < Int.signed (w_ st))
  \/ (gameOver_ st = true /\ r = Int.signed (h_ st) / 2
      /\ exists j : nat,
           gameOver_text !! j = Some ch
           /\ c = Z.max 1 ((Int.signed (w_ st) - 30) / 2) + Z.of_nat j
           /\ c < Int.signed (w_ st) - 1).
Proof.
  intros Hw Hh Hin.
  destruct (msg_place (w_ st) (h_ st) Hw Hh) as (Hs1 & Hs & Hrow & _).
  pose proof (Int.signed_range (w_ st)) as Hwr.
  unfold Int.min_signed, Int.max_signed in Hwr.
  apply elem_of_app in Hin as [Hin | Hin].
  { apply list_elem_of_singleton in Hin. injection Hin as -> -> ->. auto. }
  apply elem_of_app in Hin as [Hin | Hin].
  { right; left. now apply snake_writes_elem in Hin. }
  apply elem_of_app in Hin as [Hin | Hin].
  { right; right; left. apply hud_writes_elem in Hin as (-> & j & Hj & -> & Hc).
    split; [reflexivity|]. exists j. split; [exact Hj|]. lia. }
  right; right; right. destruct (gameOver_ st); [|inversion Hin].
  apply msg_writes_elem in Hin as (-> & j & Hj & -> & Hc).
  - split; [reflexivity|]. split; [exact Hrow|]. exists j. rewrite <- Hs. split; [exact Hj|]. lia.
  - lia.
  - lia.
  - change (length gameOver_text) with 30%nat. unfold Int.max_signed.
    rewrite Hs. assert ((Int.signed (w_ st) - 30) / 2 <= 1073741823)
      by (apply Z.lt_succ_r, Z.div_lt_upper_bound; lia). lia.
  - unfold Int.min_signed. lia.
Qed.

Lemma reachable_frame_facts (w h : int) st :
  6 <= Int.signed w -> 3 <= Int.signed h -> reachable w h st ->
  Int.signed (w_ st) = Int.signed w /\ Int.signed (h_ st) = Int.signed h
  /\ NoDup (snake_ st) /\ Forall (interior st) (snake_ st)
  /\ interior st (food_ st) /\ food_ st ∉ snake_ st.
Proof.
  intros Hw Hh Hreach.
  pose proof (reachable_game_inv w h st Hreach) as (Ew & Eh & Hnd & _).
  pose proof (reachable_inside w h st Hw Hh Hreach) as [Hin Hfood].
  pose proof (reachable_food_free_inv w h st Hreach) as Hfree.
  rewrite Ew, Eh. auto 10.
Qed.

(** X13: the frame of a reachable state always shows the walls: the
    whole bottom row, both side columns below the top row, and on the top
    row the two cells before the HUD text and the cells after it are
    ['#']; neither the snake, the food nor the game-over message is ever
    drawn over them. *)
Theorem frame_walls (w h : int) st (buf : Buffer) (r c : Z) :
  6 <= Int.signed w -> 3 <= Int.signed h ->
  reachable w h st -> buildBuffer st = Ok buf ->
  (r = Int.signed h - 1 /\ 0 <= c < Int.signed w)
  \/ (1 <= r < Int.signed h /\ (c = 0 \/ c = Int.signed w - 1))
  \/ (r = 0 /\ (0 <= c < 2
               \/ 2 + Z.of_nat (length (hud_text st)) <= c < Int.signed w)) ->
  cell buf r c = Some "#"%char.
Proof.
  intros Hw Hh Hreach Hbuf Hcell.
  destruct (reachable_frame_facts w h st Hw Hh Hreach) as (Ew & Eh & _ & Hsnake & Hfood & _).
  destruct Hfood as [[? ?] [? ?]].
  pose proof (Int.signed_range (w_ st)) as Hwr. pose proof (Int.signed_range (h_ st)) as Hhr.
  unfold Int.min_signed, Int.max_signed in *.
  assert (Hh2 : 1 <= Int.signed (h_ st) / 2 <= Int.signed (h_ st) - 2)
    by (apply (msg_place (w_ st) (h_ st)); lia).
  assert (Hhm1 : Int.signed (Int.sub (h_ st) (Int.repr 1)) = Int.signed (h_ st) - 1)
    by (unfold Int.sub; int_simpl; reflexivity).
  assert (Hwm1 : Int.signed (Int.sub (w_ st) (Int.repr 1)) = Int.signed (w_ st) - 1)
    by (unfold Int.sub; int_simpl; reflexivity).
  apply (frame_shows st buf []
           ((seqZ 0 (Int.signed (w_ st)) ≫= fun c =>
               [(0, c, "#"%char); (Int.signed (Int.sub (h_ st) (Int.repr 1)), c, "#"%char)])
            ++ (seqZ 0 (Int.signed (h_ st)) ≫= fun r =>
                  [(r, 0, "#"%char); (r, Int.signed (Int.sub (w_ st) (Int.repr 1)), "#"%char)]))
           ([(Int.signed (y (food_ st)), Int.signed (x (food_ st)), "*"%char)]
            ++ snake_writes (snake_ st) 0
            ++ hud_writes (hud_text st) 0 (w_ st)
            ++ (if gameOver_ st
                then msg_writes gameOver_text 0 (msg_start (w_ st)) (msg_row (h_ st)) (w_ st)
                else [])));
    try lia; try exact Hbuf.
  - unfold frame_writes. now rewrite app_nil_l, <- app_assoc.
  - rewrite elem_of_app, border_rows_elem, border_cols_elem, Hhm1, Hwm1.
    destruct Hcell as [[-> Hc] | [[Hr Hc] | [-> Hc]]].
    + left. split; [reflexivity|]. lia.
    + right. split; [reflexivity|]. lia.
    + left. split; [reflexivity|]. lia.
  - intros ch'. rewrite elem_of_app, border_rows_elem, border_cols_elem. tauto.
  - intros ch' Hin. apply frame_inner_writes in Hin; [|lia|lia].
    destruct Hin as [(-> & -> & _) | [(p & Hp & -> & ->) | [(-> & j & Hj & -> & Hc)
                    | (_ & -> & j & _ & -> & Hc)]]].
    + lia.
    + apply (proj1 (list.Forall_forall _ _) Hsnake) in Hp. destruct Hp as [[? ?] [? ?]]. lia.
    + apply lookup_lt_Some in Hj. lia.
    + lia.
Qed.

(** Where the game-over message is written. *)
Lemma msg_writes_place (w h : int) (r c : Z) (ch : ascii) :
  3 <= Int.signed w -> 3 <= Int.signed h ->
  (r, c, ch) ∈ msg_writes gameOver_text 0 (msg_start w) (msg_row h) w <->
  r = Int.signed h / 2
  /\ exists j : nat,
       gameOver_text !! j = Some ch
       /\ c = Z.max 1 ((Int.signed w - 30) / 2) + Z.of_nat j
       /\ c < Int.signed w - 1.
Proof.
  intros Hw Hh.
  destruct (msg_place w h Hw Hh) as (Hs1 & Hs & Hrow & _).
  pose proof (Int.signed_range w) as Hwr. unfold Int.min_signed, Int.max_signed in Hwr.
  rewrite msg_writes_elem.
  - rewrite Hrow, Hs. split; intros (-> & j & Hj & -> & Hc); (split; [reflexivity|]);
      exists j; (split; [exact Hj|]); lia.
  - lia.
  - lia.
  - change (length gameOver_text) with 30%nat. unfold Int.max_signed. rewrite Hs.
    assert ((Int.signed w - 30) / 2 <= 1073741823)
      by (apply Z.lt_succ_r, Z.div_lt_upper_bound; lia). lia.
  - unfold Int.min_signed. lia.
Qed.

(** The HUD and the message keep to the top row and to row [h / 2]. *)
Lemma frame_text_writes st (r c : Z) (ch : ascii) :
  3 <= Int.signed (w_ st) -> 3 <= Int.signed (h_ st) ->
  (r, c, ch)
    ∈ hud_writes (hud_text st) 0 (w_ st)
      ++ (if gameOver_ st
          then msg_writes gameOver_text 0 (msg_start (w_ st)) (msg_row (h_ st)) (w_ st)
          else []) ->
  r = 0 \/ (gameOver_ st = true /\ r = Int.signed (h_ st) / 2).
Proof.
  intros Hw Hh Hin. apply elem_of_app in Hin as [Hin | Hin].
  - left. now apply hud_writes_elem in Hin as [-> _].
  - right. destruct (gameOver_ st); [|inversion Hin].
    apply msg_writes_place in Hin as [-> _]; auto.
Qed.

(** X14: in the frame of a reachable state the head is drawn as ['O'],
    every other segment as ['o'] and the food as ['*'], each at its own
    cell; only the game-over message, on row [h / 2] of a finished game,
    can hide them. *)
Theorem frame_snake_and_food (w h : int) st (buf : Buffer) (head : Vec2) (rest : list Vec2) :
  6 <= Int.signed w -> 3 <= Int.signed h ->
  reachable w h st -> buildBuffer st = Ok buf ->
  snake_ st = head :: rest ->
  (gameOver_ st = false \/ Int.signed (y head) <> Int.signed h / 2 ->
   cell buf (Int.signed (y head)) (Int.signed (x head)) = Some "O"%char)
  /\ (forall p, p ∈ rest ->
      gameOver_ st = false \/ Int.signed (y p) <> Int.signed h / 2 ->
      cell buf (Int.signed (y p)) (Int.signed (x p)) = Some "o"%char)
  /\ (gameOver_ st = false \/ Int.signed (y (food_ st)) <> Int.signed h / 2 ->
      cell buf (Int.signed (y (food_ st))) (Int.signed (x (food_ st))) = Some "*"%char).
Proof.
  intros Hw Hh Hreach Hbuf Hs.
  destruct (reachable_frame_facts w h st Hw Hh Hreach)
    as (Ew & Eh & Hnd & Hsnake & Hfood & Hfree).
  rewrite Hs in Hnd, Hsnake, Hfree.
  pose proof (NoDup_cons_1_1 _ _ Hnd) as Hhead.
  set (P12 := (seqZ 0 (Int.signed (w_ st)) ≫= fun c =>
                 [(0, c, "#"%char);
                  (Int.signed (Int.sub (h_ st) (Int.repr 1)), c, "#"%char)])
              ++ (seqZ 0 (Int.signed (h_ st)) ≫= fun r =>
                    [(r, 0, "#"%char);
                     (r, Int.signed (Int.sub (w_ st) (Int.repr 1)), "#"%char)])).
  set (P3 := [(Int.signed (y (food_ st)), Int.signed (x (food_ st)), "*"%char)]).
  set (P56 := hud_writes (hud_text st) 0 (w_ st)
              ++ (if gameOver_ st
                  then msg_writes gameOver_text 0 (msg_start (w_ st)) (msg_row (h_ st)) (w_ st)
                  else [])).
  assert (Hparts : frame_writes st = P12 ++ P3 ++ snake_writes (head :: rest) 0 ++ P56).
  { unfold frame_writes, P12, P3, P56. rewrite Hs. now rewrite <- !app_assoc. }
  assert (Htext : forall q ch', interior st q ->
             gameOver_ st = false \/ Int.signed (y q) <> Int.signed h / 2 ->
             (Int.signed (y q), Int.signed (x q), ch') ∉ P56).
  { intros q ch' [[? ?] [? ?]] Hvis Hin. apply frame_text_writes in Hin; [|lia|lia].
    destruct Hin as [E | [Hover E]]; [lia|].
    destruct Hvis as [Hplay | Hrow]; [congruence | rewrite <- Eh in Hrow; contradiction]. }
  assert (Hon : forall q ch' i, (Int.signed (y q), Int.signed (x q), ch') ∈ snake_writes rest i ->
                                q ∈ rest).
  { intros q ch' i Hin. apply snake_writes_elem in Hin as (p & Hp & Ey & Ex).
    replace q with p; [exact Hp|]. apply coords_inj. unfold coords. congruence. }
  pose proof (Forall_cons_1 _ _ _ Hsnake) as [Hih Hirest].
  split; [|split].
  - intros Hvis.
    apply (frame_shows st buf (P12 ++ P3) (snake_writes (head :: rest) 0) P56);
      try lia; try exact Hbuf.
    + now rewrite Hparts, <- !app_assoc.
    + left.
    + intros ch' Hin. apply elem_of_cons in Hin as [[= ->] | Hin]; [reflexivity|].
      exfalso. apply Hhead. now apply (Hon head ch' 1%nat).
    + intros ch'. now apply Htext.
  - intros p Hp Hvis.
    destruct (snake_writes_has rest 1 p Hp) as [ch Hch].
    pose proof (snake_writes_body _ _ _ _ _ Hch) as ->.
    apply (frame_shows st buf (P12 ++ P3) (snake_writes (head :: rest) 0) P56);
      try lia; try exact Hbuf.
    + now rewrite Hparts, <- !app_assoc.
    + right. exact Hch.
    + intros ch' Hin. apply elem_of_cons in Hin as [[= Ey Ex _] | Hin].
      * exfalso. apply Hhead. replace head with p; [exact Hp|].
        apply coords_inj. unfold coords. congruence.
      * now apply snake_writes_body in Hin.
    + intros ch'. apply Htext; [|exact Hvis].
      now apply (proj1 (list.Forall_forall _ _) Hirest).
  - intros Hvis.
    apply (frame_shows st buf P12 P3 (snake_writes (head :: rest) 0 ++ P56));
      try lia; try exact Hbuf.
    + exact Hparts.
    + left.
    + intros ch' Hin. apply list_elem_of_singleton in Hin. now injection Hin.
    + intros ch' Hin. apply elem_of_app in Hin as [Hin | Hin].
      * apply Hfree. apply snake_writes_elem in Hin as (p & Hp & Ey & Ex).
        replace (food_ st) with p; [exact Hp|]. apply coords_inj. unfold coords. congruence.
      * revert Hin. now apply Htext.
Qed.

(** X15: the top row of the frame of a reachable state carries the HUD
    text from column 2 on: character [j] of
    ["Score: " + to_string(score_) + "   WASD=move  Q=quit"] is at column
    [j + 2], as far as the row reaches. *)
Theorem frame_hud (w h : int) st (buf : Buffer) (j : nat) (ch : ascii) :
  6 <= Int.signed w -> 3 <= Int.signed h ->
  reachable w h st -> buildBuffer st = Ok buf ->
  hud_text st !! j = Some ch -> Z.of_nat j + 2 < Int.signed w ->
  cell buf 0 (Z.of_nat j + 2) = Some ch.
Proof.
  intros Hw Hh Hreach Hbuf Hj Hfit.
  destruct (reachable_frame_facts w h st Hw Hh Hreach) as (Ew & Eh & _).
  assert (Hh2 : 1 <= Int.signed (h_ st) / 2 <= Int.signed (h_ st) - 2)
    by (apply (msg_place (w_ st) (h_ st)); lia).
  apply (frame_shows st buf
           (((seqZ 0 (Int.signed (w_ st)) ≫= fun c =>
               [(0, c, "#"%char);
                (Int.signed (Int.sub (h_ st) (Int.repr 1)), c, "#"%char)])
             ++ (seqZ 0 (Int.signed (h_ st)) ≫= fun r =>
                   [(r, 0, "#"%char);
                    (r, Int.signed (Int.sub (w_ st) (Int.repr 1)), "#"%char)]))
            ++ [(Int.signed (y (food_ st)), Int.signed (x (food_ st)), "*"%char)]
            ++ snake_writes (snake_ st) 0)
           (hud_writes (hud_text st) 0 (w_ st))
           (if gameOver_ st
            then msg_writes gameOver_text 0 (msg_start (w_ st)) (msg_row (h_ st)) (w_ st)
            else []));
    try lia; try exact Hbuf.
  - unfold frame_writes. now rewrite <- !app_assoc.
  - apply hud_writes_elem. split; [reflexivity|]. exists j. split; [exact Hj|]. lia.
  - intros ch' Hin. apply hud_writes_elem in Hin as (_ & j' & Hj' & E & _).
    assert (j' = j) by lia. subst j'. congruence.
  - intros ch' Hin. destruct (gameOver_ st); [|inversion Hin].
    apply msg_writes_place in Hin as [E _]; lia.
Qed.

(** X16: the frame of a finished game shows the text
    ["GAME OVER  (R=restart, Q=quit)"] on row [h / 2], starting at column
    [max(1, (w - 30) / 2)] and cut off before the right wall; nothing is
    drawn over it. *)
Theorem frame_gameOver_message (w h : int) st (buf : Buffer) (j : nat) (ch : ascii) :
  6 <= Int.signed w -> 3 <= Int.signed h ->
  reachable w h st -> buildBuffer st = Ok buf ->
  gameOver_ st = true ->
  gameOver_text !! j = Some ch ->
  Z.max 1 ((Int.signed w - 30) / 2) + Z.of_nat j < Int.signed w - 1 ->
  cell buf (Int.signed h / 2) (Z.max 1 ((Int.signed w - 30) / 2) + Z.of_nat j) = Some ch.
Proof.
  intros Hw Hh Hreach Hbuf Hover Hj Hfit.
  destruct (reachable_frame_facts w h st Hw Hh Hreach) as (Ew & Eh & _).
  rewrite <- Ew, <- Eh in *.
  apply (frame_shows st buf
           (((seqZ 0 (Int.signed (w_ st)) ≫= fun c =>
               [(0, c, "#"%char);
                (Int.signed (Int.sub (h_ st) (Int.repr 1)), c, "#"%char)])
             ++ (seqZ 0 (Int.signed (h_ st)) ≫= fun r =>
                   [(r, 0, "#"%char);
                    (r, Int.signed (Int.sub (w_ st) (Int.repr 1)), "#"%char)]))
            ++ [(Int.signed (y (food_ st)), Int.signed (x (food_ st)), "*"%char)]
            ++ snake_writes (snake_ st) 0
            ++ hud_writes (hud_text st) 0 (w_ st))
           (msg_writes gameOver_text 0 (msg_start (w_ st)) (msg_row (h_ st)) (w_ st))
           []);
    try lia; try exact Hbuf.
  - unfold frame_writes. rewrite Hover. now rewrite <- !app_assoc, app_nil_r.
  - apply msg_writes_place; [lia | lia |]. split; [reflexivity|]. exists j. auto.
  - intros ch' Hin. apply msg_writes_place in Hin as (_ & j' & Hj' & E & _); [|lia|lia].
    assert (j' = j) by lia. subst j'. congruence.
  - intros ch' Hin. inversion Hin.
Qed.

(** X17: every other interior cell of the frame of a reachable state is
    blank: a cell strictly inside the walls that carries neither the food
    nor a segment, and is not on the message row of a finished game, shows
    a space. *)
Theorem frame_blank_elsewhere (w h : int) st (buf : Buffer) (r c : Z) :
  6 <= Int.signed w -> 3 <= Int.signed h ->
  reachable w h st -> buildBuffer st = Ok buf ->
  1 <= r <= Int.signed h - 2 -> 1 <= c <= Int.signed w - 2 ->
  (forall p, p ∈ food_ st :: snake_ st ->
             ~ (r = Int.signed (y p) /\ c = Int.signed (x p))) ->
  gameOver_ st = false \/ r <> Int.signed h / 2 ->
  cell buf r c = Some " "%char.
Proof.
  intros Hw Hh Hreach Hbuf Hr Hc Hfree Hvis.
  destruct (reachable_frame_facts w h st Hw Hh Hreach) as (Ew & Eh & _).
  rewrite <- Ew, <- Eh in *.
  pose proof (Int.signed_range (w_ st)) as Hwr. pose proof (Int.signed_range (h_ st)) as Hhr.
  unfold Int.min_signed, Int.max_signed in *.
  assert (Hhm1 : Int.signed (Int.sub (h_ st) (Int.repr 1)) = Int.signed (h_ st) - 1)
    by (unfold Int.sub; int_simpl; reflexivity).
  assert (Hwm1 : Int.signed (Int.sub (w_ st) (Int.repr 1)) = Int.signed (w_ st) - 1)
    by (unfold Int.sub; int_simpl; reflexivity).
  rewrite buildBuffer_writes in Hbuf by lia.
  rewrite (apply_writes_cell _ _ _ r c Hbuf), last_write_none.
  - unfold cell.
    replace ((0 <=? r) && (0 <=? c)) with true
      by (symmetry; apply andb_true_intro; split; apply Z.leb_le; lia).
    rewrite lookup_replicate_2 by lia. cbn. now rewrite lookup_replicate_2 by lia.
  - intros ch Hin. unfold frame_writes in Hin.
    apply elem_of_app in Hin as [Hin | Hin].
    { apply border_rows_elem in Hin. lia. }
    apply elem_of_app in Hin as [Hin | Hin].
    { apply border_cols_elem in Hin. lia. }
    apply frame_inner_writes in Hin; [|lia|lia].
    destruct Hin as [(Ey & Ex & _) | [(p & Hp & Ey & Ex) | [(E & _) | (Hover & E & _)]]].
    + apply (Hfree (food_ st)); [left | auto].
    + apply (Hfree p); [now right | auto].
    + lia.
    + destruct Hvis; congruence.
Qed.

End GameFacts.

(** ** Input, rendering and the main loop *)
Section MainLoopFacts.

Context {R : Type} `{RandomSource R}.

Implicit Types (st : Game R) (wd : World R) (host : Host).

Lemma handleInput_escape_prefix fuel st :
  handleInput fuel "027" st = Ok st
  /\ handleInput fuel "[" st = Ok st.
Proof.
  split; unfold handleInput; cbn; rewrite isOpposite_same; cbn; now rewrite with_dir_same.
Qed.

(** X18: the POSIX key poll hands an escape sequence over byte by byte:
    ESC and ['['] are ignored and the byte after them is handled as if it
    had been typed alone.  The sequence ESC [ A of the Up arrow therefore
    acts as the key A and turns a snake that is not heading right to the
    left. *)
Theorem posix_escape_sequence_bytewise fuel st (f : ascii) (rest : list ascii)
    (per_ms : Z) :
  pollInputs (mkHost pollKey_posix per_ms) fuel 3 st
    ("027"%char :: "["%char :: f :: rest)
  = (st' ← handleInput fuel f st; Ok (st', rest))
  /\ (f = "A"%char -> dir_ st <> Right ->
      pollInputs (mkHost pollKey_posix per_ms) fuel 3 st
        ("027"%char :: "["%char :: f :: rest)
      = Ok (mkGame (w_ st) (h_ st) (rnd_ st) (snake_ st) (food_ st) Left (quit_ st)
              (gameOver_ st) (score_ st) (tickMs_ st), rest)).
Proof.
  destruct (handleInput_escape_prefix fuel st) as [Hesc Hbr].
  assert (E : pollInputs (mkHost pollKey_posix per_ms) fuel 3 st
                ("027"%char :: "["%char :: f :: rest)
              = (st' ← handleInput fuel f st; Ok (st', rest))).
  { assert (P : forall (c : ascii) (st0 : Game R) (l : list ascii),
               pollInput (mkHost pollKey_posix per_ms) fuel st0 (c :: l)
               = (st' ← handleInput fuel c st0; Ok (st', l))) by reflexivity.
    cbn [pollInputs]. rewrite P, Hesc. cbn [mbind result_bind].
    rewrite P, Hbr. cbn [mbind result_bind]. rewrite P.
    destruct (handleInput fuel f st); reflexivity. }
  split; [exact E|].
  intros -> Hdir. rewrite E. unfold handleInput. cbn.
  replace (isOpposite (dir_ st) Left) with false
    by (destruct (dir_ st); cbn; congruence).
  reflexivity.
Qed.

(** X19: the Windows key poll swallows an extended key as a unit: after
    a first byte 0 or 224 the code that follows is dropped with it,
    whatever it is, and the game is left as it was. *)
Theorem windows_extended_key_swallowed fuel st (p b : ascii) (rest : list ascii)
    (per_ms : Z) :
  p = zero \/ p = "224"%char ->
  pollInput (mkHost pollKey_windows per_ms) fuel st (p :: b :: rest) = Ok (st, rest).
Proof.
  intros [-> | ->]; reflexivity.
Qed.

Lemma draw_length (buf : Buffer) (h w : nat) (o : list ascii) :
  buf_dims h w buf ->
  length (Renderer_draw buf o) = (length o + 7 + h * (w + 1))%nat.
Proof.
  intros [Hlen Hrows]. unfold Renderer_draw.
  assert (E : forall (l : list (list ascii)) (acc : list ascii),
             Forall (fun line => length line = w) l ->
             length (fold_left (fun o line => o ++ line ++ ["010"%char]) l acc)
             = (length acc + length l * (w + 1))%nat).
  { induction l as [|line l IH]; intros acc Hl; cbn [fold_left length]; [lia|].
    apply Forall_cons_1 in Hl as [Hline Hl].
    rewrite IH by exact Hl. rewrite !length_app, Hline. cbn [length]. lia. }
  rewrite E by exact Hrows. unfold Renderer_clearScreen.
  rewrite length_app, Hlen. cbn [length]. lia.
Qed.

(** What a returning iteration of the loop did. *)
Lemma loop_body_Ok host fuel (m : Moment) wd wd' :
  loop_body host fuel m wd = Ok wd' ->
  exists (c : ascii) (p : list ascii) (st1 : Game R) (buf : Buffer),
    pollKey host (pending_keys wd ++ typed m) = (c, p)
    /\ handleInput fuel c (game wd) = Ok st1
    /\ (game wd' = st1 \/ step fuel st1 = Ok (game wd'))
    /\ buildBuffer (game wd') = Ok buf
    /\ pending_keys wd' = p
    /\ output wd' = Renderer_draw buf (output wd).
Proof.
  unfold loop_body.
  destruct (pollKey host (pending_keys wd ++ typed m)) as [c p].
  destruct (handleInput fuel c (game wd)) as [st1| | |] eqn:Hin; cbn; try discriminate.
  destruct (Z.quot (clock m - last_step wd) (clock_per_ms host) >=? Int.signed (tickMs_ st1)).
  - destruct (step fuel st1) as [st2| | |] eqn:Hstep; cbn; try discriminate.
    unfold drawFrame.
    destruct (buildBuffer st2) as [buf| | |] eqn:Hbuf; cbn; try discriminate.
    intros [= <-]. exists c, p, st1, buf. cbn. auto 10.
  - cbn. unfold drawFrame.
    destruct (buildBuffer st1) as [buf| | |] eqn:Hbuf; cbn; try discriminate.
    intros [= <-]. exists c, p, st1, buf. cbn. auto 10.
Qed.

Lemma loop_body_reachable host fuel (m : Moment) (w h : int) wd wd' :
  reachable w h (game wd) -> loop_body host fuel m wd = Ok wd' ->
  reachable w h (game wd').
Proof.
  intros Hreach E.
  apply loop_body_Ok in E as (c & p & st1 & buf & _ & Hin & Hstep & _).
  pose proof (reachable_input w h fuel c _ _ Hreach Hin) as Hr1.
  destruct Hstep as [-> | Hstep]; [exact Hr1|].
  exact (reachable_step w h fuel _ _ Hr1 Hstep).
Qed.

Lemma loop_body_defined host fuel (m : Moment) (w h : int) wd :
  6 <= Int.signed w -> 3 <= Int.signed h ->
  reachable w h (game wd) -> defined (loop_body host fuel m wd).
Proof.
  intros Hw Hh Hreach. unfold loop_body.
  destruct (pollKey host (pending_keys wd ++ typed m)) as [c p].
  destruct (proj2 (reachable_defined w h _ fuel Hreach) c) as [[st1 Hin] | Hin];
    rewrite Hin; cbn; [|now right].
  pose proof (reachable_input w h fuel c _ _ Hreach Hin) as Hr1.
  assert (Hdraw : forall st2 l, reachable w h st2 ->
            defined (o ← drawFrame st2 (output wd); Ok (mkWorld st2 p l o))).
  { intros st2 l Hr2. unfold drawFrame.
    destruct (buildBuffer_frame st2 (reachable_inside w h st2 Hw Hh Hr2)) as (buf & -> & _).
    cbn. left. eauto. }
  destruct (Z.quot (clock m - last_step wd) (clock_per_ms host) >=? Int.signed (tickMs_ st1)).
  - destruct (proj1 (reachable_defined w h _ fuel Hr1)) as [[st2 Hstep] | Hstep];
      rewrite Hstep; cbn; [|now right].
    apply Hdraw. exact (reachable_step w h fuel _ _ Hr1 Hstep).
  - cbn. now apply Hdraw.
Qed.

Lemma run_loop_defined host fuel (ms : list Moment) (w h : int) wd :
  6 <= Int.signed w -> 3 <= Int.signed h ->
  reachable w h (game wd) -> defined (run_loop host fuel ms wd).
Proof.
  intros Hw Hh. revert wd. induction ms as [|m ms IH]; intros wd Hreach; cbn [run_loop];
    (destruct (quit_ (game wd)); [left; eauto|]).
  - now right.
  - destruct (loop_body_defined host fuel m w h wd Hw Hh Hreach) as [[wd' E] | E];
      rewrite E; cbn; [|now right].
    apply IH. exact (loop_body_reachable host fuel m w h wd wd' Hreach E).
Qed.

Lemma run_loop_Ok host fuel (ms : list Moment) wd (code : int) wd' :
  run_loop host fuel ms wd = Ok (code, wd') ->
  code = Int.repr 0 /\ quit_ (game wd') = true.
Proof.
  revert wd. induction ms as [|m ms IH]; intros wd; cbn [run_loop];
    destruct (quit_ (game wd)) eqn:Hq; try discriminate;
    try (intros [= <- <-]; auto).
  destruct (loop_body host fuel m wd) as [wd1| | |]; cbn; try discriminate.
  apply IH.
Qed.

(** X20: the program never runs into undefined behaviour and throws
    nothing: on either build, whatever is typed, whatever the clock reads
    and whatever the generator draws, [main] returns or is still running;
    and when it returns, it returns 0 with [quit_] set. *)
Theorem main_defined host fuel (g : R) (start : Z) (ms : list Moment)
    (pending : list ascii) :
  defined (main host fuel g start ms pending)
  /\ (forall (code : int) wd,
        main host fuel g start ms pending = Ok (code, wd) ->
        code = Int.repr 0 /\ quit_ (game wd) = true).
Proof.
  unfold main, run. split.
  - destruct (newGame fuel (Int.repr 50) (Int.repr 22) g) as [st| | |] eqn:Hnew; cbn.
    + apply (run_loop_defined host fuel ms (Int.repr 50) (Int.repr 22));
        [vm_compute; discriminate | vm_compute; discriminate |].
      exact (reachable_new _ _ fuel g st Hnew).
    + exfalso. unfold newGame, reset in Hnew.
      destruct (spawnFood_defined fuel
                  (mkGame (Int.repr 50) (Int.repr 22) g
                     (initial_snake (Int.repr 50) (Int.repr 22))
                     (mkVec2 (Int.repr 0) (Int.repr 0)) Right false false
                     (Int.repr 0) (Int.repr 110))) as [[st E] | E].
      * split; reflexivity.
      * unfold initial_snake in E. cbn in E, Hnew. congruence.
      * unfold initial_snake in E. cbn in E, Hnew. congruence.
    + exfalso. unfold newGame, reset in Hnew.
      destruct (spawnFood_defined fuel
                  (mkGame (Int.repr 50) (Int.repr 22) g
                     (initial_snake (Int.repr 50) (Int.repr 22))
                     (mkVec2 (Int.repr 0) (Int.repr 0)) Right false false
                     (Int.repr 0) (Int.repr 110))) as [[st E] | E].
      * split; reflexivity.
      * unfold initial_snake in E. cbn in E, Hnew. congruence.
      * unfold initial_snake in E. cbn in E, Hnew. congruence.
    + now right.
  - intros code wd.
    destruct (newGame fuel (Int.repr 50) (Int.repr 22) g) as [st| | |]; cbn;
      try discriminate.
    apply run_loop_Ok.
Qed.

(** With nothing to eat in front of the head, [step] returns whatever
    the fuel: the food loop is not entered. *)
Lemma step_returns_without_food fuel (w h : int) st :
  reachable w h st ->
  gameOver_ st = true
  \/ (forall head rest, snake_ st = head :: rest -> advance (dir_ st) head <> food_ st) ->
  exists st', step fuel st = Ok st'.
Proof.
  intros Hreach Hno. unfold step.
  destruct (gameOver_ st) eqn:Hover; [eauto|].
  destruct Hno as [Hno | Hno]; [discriminate|].
  pose proof (reachable_game_inv w h st Hreach) as (_ & _ & _ & Hlen & _).
  destruct (snake_ st) as [|head rest] eqn:Hs; [cbn in Hlen; lia|].
  destruct (hitWall st (advance (dir_ st) head) || hitSelf st (advance (dir_ st) head));
    [eauto|].
  cbv zeta. cbn [food_ with_snake].
  pose proof (Hno head rest eq_refl) as Hne. apply Vec2_eqb_neq in Hne.
  rewrite Hne. eauto.
Qed.

(** X21: the key q or Q ends the loop with the iteration that polls it:
    [run] is that one iteration followed by [return 0], whatever input
    comes later, and the bytes behind the key stay unread.  In a
    reachable game on a grid of at least 6 by 3 cells the iteration
    returns whenever no tick is due, the game is over, or the cell in
    front of the head is not the food; the one way for it not to return
    is a due step whose food loop does not. *)
Theorem run_loop_quits host fuel (m : Moment) (ms : list Moment) (w h : int) wd
    (c : ascii) (p : list ascii) :
  6 <= Int.signed w -> 3 <= Int.signed h ->
  reachable w h (game wd) ->
  quit_ (game wd) = false ->
  pollKey host (pending_keys wd ++ typed m) = (c, p) ->
  c = "q"%char \/ c = "Q"%char ->
  run_loop host fuel (m :: ms) wd
  = (wd' ← loop_body host fuel m wd; Ok (Int.repr 0, wd'))
  /\ (forall wd', loop_body host fuel m wd = Ok wd' ->
      pending_keys wd' = p /\ quit_ (game wd') = true)
  /\ ((Z.quot (clock m - last_step wd) (clock_per_ms host)
       >=? Int.signed (tickMs_ (game wd))) = false
      \/ gameOver_ (game wd) = true
      \/ (forall head rest, snake_ (game wd) = head :: rest ->
          advance (dir_ (game wd)) head <> food_ (game wd)) ->
      exists wd', loop_body host fuel m wd = Ok wd')
  /\ ((exists wd', loop_body host fuel m wd = Ok wd')
      \/ ((Z.quot (clock m - last_step wd) (clock_per_ms host)
           >=? Int.signed (tickMs_ (game wd))) = true
          /\ step fuel (with_quit (game wd) true) = OutOfFuel
          /\ loop_body host fuel m wd = OutOfFuel)).
Proof.
  intros Hw Hh Hreach Hq Hpoll Hc.
  assert (Hin : handleInput fuel c (game wd) = Ok (with_quit (game wd) true))
    by (destruct Hc as [-> | ->]; reflexivity).
  pose proof (reachable_input w h fuel c _ _ Hreach Hin) as Hr1.
  assert (Hquit : forall wd', loop_body host fuel m wd = Ok wd' ->
            pending_keys wd' = p /\ quit_ (game wd') = true).
  { intros wd' E.
    apply loop_body_Ok in E as (c' & p' & st1 & buf & Hpoll' & Hin' & Hstep & _ & Hp & _).
    rewrite Hpoll in Hpoll'. injection Hpoll' as <- <-.
    rewrite Hin in Hin'. injection Hin' as <-.
    split; [exact Hp|].
    destruct Hstep as [-> | Hstep]; [reflexivity|].
    apply step_Ok in Hstep.
    destruct Hstep as [_ -> | ? ? _ _ _ -> | ? ? ? ? _ _ _ _ _ _ -> | ? ? _ _ _ _ _ ->];
      reflexivity. }
  assert (Hdraw : forall st2 l, reachable w h st2 ->
            exists o, (o ← drawFrame st2 (output wd); Ok (mkWorld st2 p l o))
                      = Ok (mkWorld st2 p l o)).
  { intros st2 l Hr2. unfold drawFrame.
    destruct (buildBuffer_frame st2 (reachable_inside w h st2 Hw Hh Hr2)) as (buf & -> & _).
    cbn. eauto. }
  split; [|split; [exact Hquit|split]].
  - cbn [run_loop]. rewrite Hq.
    destruct (loop_body host fuel m wd) as [wd'| | |] eqn:E; cbn; try reflexivity.
    destruct (Hquit wd' eq_refl) as [_ Hq'].
    destruct ms; cbn [run_loop]; now rewrite Hq'.
  - intros Hcase. unfold loop_body. rewrite Hpoll, Hin. cbn.
    destruct (Z.quot (clock m - last_step wd) (clock_per_ms host)
              >=? Int.signed (tickMs_ (game wd))) eqn:Hdue.
    + destruct Hcase as [Hcase | Hcase]; [discriminate|].
      destruct (step_returns_without_food fuel w h _ Hr1 Hcase) as [st2 Hstep].
      rewrite Hstep. cbn.
      destruct (Hdraw st2 (clock m) (reachable_step w h fuel _ _ Hr1 Hstep)) as [o ->].
      eauto.
    + cbn. destruct (Hdraw _ (last_step wd) Hr1) as [o ->]. eauto.
  - unfold loop_body. rewrite Hpoll, Hin. cbn.
    destruct (Z.quot (clock m - last_step wd) (clock_per_ms host)
              >=? Int.signed (tickMs_ (game wd))) eqn:Hdue.
    + destruct (proj1 (reachable_defined w h _ fuel Hr1)) as [[st2 Hstep] | Hstep];
        rewrite Hstep; cbn.
      * left. destruct (Hdraw st2 (clock m) (reachable_step w h fuel _ _ Hr1 Hstep))
          as [o ->]. eauto.
      * right. auto.
    + left. cbn. destruct (Hdraw _ (last_step wd) Hr1) as [o ->]. eauto.
Qed.

(** X22: every iteration of the loop redraws the whole frame, whether or
    not a tick was due: in a reachable game on a grid of at least 6 by 3
    cells it adds to the output the 7 characters of the clear sequence
    and [h] lines of [w] characters, each ended by a newline. *)
Theorem loop_body_draws_full_frame host fuel (m : Moment) (w h : int) wd wd' :
  6 <= Int.signed w -> 3 <= Int.signed h ->
  reachable w h (game wd) ->
  loop_body host fuel m wd = Ok wd' ->
  Z.of_nat (length (output wd'))
  = Z.of_nat (length (output wd)) + 7 + Int.signed h * (Int.signed w + 1).
Proof.
  intros Hw Hh Hreach E.
  pose proof (loop_body_reachable host fuel m w h wd wd' Hreach E) as Hr'.
  apply loop_body_Ok in E as (c & p & st1 & buf & _ & _ & _ & Hbuf & _ & ->).
  pose proof (reachable_game_inv w h _ Hr') as (Ew & Eh & _).
  destruct (buildBuffer_frame _ (reachable_inside w h _ Hw Hh Hr')) as (buf' & Hbuf' & Hdims).
  rewrite Hbuf in Hbuf'. injection Hbuf' as <-.
  rewrite (draw_length buf _ _ _ Hdims), Ew, Eh. lia.
Qed.

Lemma play_reachable fuel (evs : list event) (w h : int) st st' :
  reachable w h st -> play fuel evs st = Ok st' -> reachable w h st'.
Proof.
  revert st. induction evs as [|e evs IH]; intros st Hreach; cbn [play].
  - now intros [= <-].
  - destruct (apply_event fuel e st) as [st1| | |] eqn:E; cbn; try discriminate.
    apply IH. destruct e as [|c]; cbn [apply_event] in E.
    + exact (reachable_step w h fuel _ _ Hreach E).
    + exact (reachable_input w h fuel c _ _ Hreach E).
Qed.

End MainLoopFacts.

(** ** Runs of the program's game *)

(** The constructor draws (25, 11), which is on the snake, and then
    (26, 11). *)
Example newGame_50x22 :
  newGame 2 (Int.repr 50) (Int.repr 22) (map Int.repr [25; 11; 26; 11; 7; 3])
  = Ok (game_50x22 (pos 26 11) [Int.repr 7; Int.repr 3]).
Proof. reflexivity. Qed.

(** Running into one's own body, here into the tail, ends the game as
    well and leaves the body as it was. *)
Example step_into_body :
  (st ← handleInput 0 "w" (game_50x22_fed (pos 7 3) []);
   st ← step 0 st;
   st ← handleInput 0 "a" st;
   st ← step 0 st;
   st ← handleInput 0 "s" st;
   step 0 st)
  = Ok (mkGame (Int.repr 50) (Int.repr 22) []
          [pos 25 10; pos 26 10; pos 26 11; pos 25 11] (pos 7 3) Down
          false true (Int.repr 10) (Int.repr 108)).
Proof. reflexivity. Qed.

Lemma step_gameOver_noop_witness : step 0 game_over = Ok game_over.
Proof. apply (step_gameOver_noop 0 game_over). reflexivity. Defined.

Lemma step_moves_forward_witness :
  step 0 (game_50x22 (pos 30 5) [])
  = Ok (mkGame (Int.repr 50) (Int.repr 22) [] [pos 26 11; pos 25 11; pos 24 11]
          (pos 30 5) Right false false (Int.repr 0) (Int.repr 110)).
Proof.
  refine (proj1 (proj2
    (step_moves_forward 0 (game_50x22 (pos 30 5) []) (pos 25 11) [pos 24 11; pos 23 11]
       eq_refl eq_refl _ _ _))).
  - vm_compute. repeat split; discriminate.
  - apply hitSelf_loop_not_elem. reflexivity.
  - apply Vec2_eqb_neq. reflexivity.
Defined.

Lemma step_eats_food_witness :
  step 1 (game_50x22 (pos 26 11) [Int.repr 7; Int.repr 3])
  = Ok (game_50x22_fed (pos 7 3) [])
  /\ length (snake_ (game_50x22_fed (pos 7 3) [])) = 4%nat
  /\ Int.signed (score_ (game_50x22_fed (pos 7 3) [])) = 10
  /\ Int.signed (tickMs_ (game_50x22_fed (pos 7 3) [])) = 108.
Proof.
  assert (Hin : interior (game_50x22 (pos 26 11) [Int.repr 7; Int.repr 3])
                  (advance Right (pos 25 11)))
    by (vm_compute; repeat split; discriminate).
  assert (Hfree : advance Right (pos 25 11) ∉ [pos 25 11; pos 24 11; pos 23 11])
    by (apply hitSelf_loop_not_elem; reflexivity).
  assert (Hfirst : first_free 0 (Int.repr 50) (Int.repr 22)
                     (advance Right (pos 25 11) :: [pos 25 11; pos 24 11; pos 23 11])
                     [Int.repr 7; Int.repr 3]).
  { split; [intros k Hk; inversion Hk|]. apply spawnFood_free_not_elem. reflexivity. }
  destruct (step_eats_food 1 (game_50x22 (pos 26 11) [Int.repr 7; Int.repr 3])
              (pos 25 11) [pos 24 11; pos 23 11]
              eq_refl eq_refl Hin Hfree eq_refl)
    as (Hret & _ & _ & Hlen & Hscore & _ & Htick).
  destruct (Hret 0%nat Hfirst (Nat.lt_0_succ 0)) as (Hstep & _).
  split; [exact Hstep|]. split; [exact Hlen|].
  split; [apply Hscore; vm_compute; discriminate|].
  apply Htick. vm_compute. discriminate.
Defined.

(** [Game(6, 3)] has four interior cells: the constructor puts the snake
    on three of them and can only put the food on the fourth, right in
    front of the head.  The first step eats it, the grown snake covers
    the interior, and the food loop never ends: [step] does not return,
    whatever the generator draws. *)
Lemma step_eats_food_counterexample :
  newGame 1 (Int.repr 6) (Int.repr 3) [Int.repr 4; Int.repr 1] = Ok (game_6x3 [])
  /\ gameOver_ (game_6x3 (@nil int)) = false
  /\ snake_ (game_6x3 (@nil int)) = pos 3 1 :: [pos 2 1; pos 1 1]
  /\ interior (game_6x3 (@nil int)) (advance (dir_ (game_6x3 (@nil int))) (pos 3 1))
  /\ (advance (dir_ (game_6x3 (@nil int))) (pos 3 1) ∉ snake_ (game_6x3 (@nil int)))
  /\ advance (dir_ (game_6x3 (@nil int))) (pos 3 1) = food_ (game_6x3 (@nil int))
  /\ (forall (R : Type) (RS : RandomSource R) (fuel : nat) (g : R),
        step fuel (game_6x3 g) = OutOfFuel)
  /\ (forall (R : Type) (RS : RandomSource R) (fuel : nat) (g : R) (st' : Game R),
        step fuel (game_6x3 g) <> Ok st').
Proof.
  assert (Hloops : forall (R : Type) (RS : RandomSource R) (fuel : nat) (g : R),
             step fuel (game_6x3 g) = OutOfFuel).
  { intros R RS fuel g.
    rewrite (step_eats_unfold fuel (game_6x3 g) (pos 3 1) [pos 2 1; pos 1 1]);
      [| reflexivity | reflexivity | vm_compute; repeat split; discriminate
       | apply hitSelf_loop_not_elem; reflexivity | reflexivity].
    rewrite spawnFood_loop_no_free; [reflexivity | vm_compute; discriminate
                                    | vm_compute; discriminate |].
    intros p Hx Hy.
    change (Int.signed (w_ (game_6x3 g))) with 6 in Hx.
    change (Int.signed (h_ (game_6x3 g))) with 3 in Hy.
    change (advance (dir_ (game_6x3 g)) (pos 3 1) :: snake_ (game_6x3 g))
      with [pos 4 1; pos 3 1; pos 2 1; pos 1 1].
    assert (Hp : forall a, Int.signed (x p) = a -> 1 <= a <= 4 -> p = pos a 1).
    { intros a Ea Ha. apply coords_inj. unfold coords, pos. cbn [x y].
      rewrite !Int.signed_repr by (unfold Int.min_signed, Int.max_signed; lia).
      f_equal; lia. }
    assert (Hcases : Int.signed (x p) = 4 \/ Int.signed (x p) = 3
                     \/ Int.signed (x p) = 2 \/ Int.signed (x p) = 1) by lia.
    destruct Hcases as [E | [E | [E | E]]]; rewrite (Hp _ E) by lia.
    - left.
    - right; left.
    - right; right; left.
    - right; right; right; left. }
  split; [reflexivity|]. split; [reflexivity|]. split; [reflexivity|].
  split; [vm_compute; repeat split; discriminate|].
  split; [apply hitSelf_loop_not_elem; reflexivity|].
  split; [reflexivity|]. split; [exact Hloops|].
  intros R RS fuel g st'. rewrite Hloops. discriminate.
Qed.

Lemma step_collision_game_over_witness :
  step 0 game_at_wall = Ok (with_gameOver game_at_wall true).
Proof.
  apply (step_collision_game_over 0 game_at_wall (pos 48 11) [pos 47 11; pos 46 11]
           eq_refl eq_refl).
  left. right. left. reflexivity.
Defined.

Lemma handleInput_direction_witness :
  handleInput 0 "a" (game_50x22 (pos 30 5) []) = Ok (game_50x22 (pos 30 5) [])
  /\ handleInput 0 "W" (game_50x22 (pos 30 5) [])
     = Ok (with_dir (game_50x22 (pos 30 5) []) Up).
Proof.
  split.
  - apply (handleInput_direction 0 (game_50x22 (pos 30 5) []) "a" Left).
    + simpl. left.
    + reflexivity.
  - apply (handleInput_direction 0 (game_50x22 (pos 30 5) []) "W" Up).
    + simpl. right. left.
    + discriminate.
Defined.

Lemma handleInput_restart_witness :
  handleInput 1 "r" game_over = Ok (game_50x22 (pos 30 5) [])
  /\ handleInput 1 "R" (game_50x22 (pos 30 5) []) = Ok (game_50x22 (pos 30 5) []).
Proof.
  split.
  - assert (Hfirst : first_free 0 (Int.repr 50) (Int.repr 22)
                       (initial_snake (Int.repr 50) (Int.repr 22))
                       [Int.repr 30; Int.repr 5]).
    { split; [intros k Hk; inversion Hk|]. apply spawnFood_free_not_elem. reflexivity. }
    exact (proj1 (proj2 (handleInput_restart 1 game_over "r" (or_introl eq_refl)))
             eq_refl (conj eq_refl eq_refl) 0%nat Hfirst (Nat.lt_0_succ 0)).
  - exact (proj1 (handleInput_restart 1 (game_50x22 (pos 30 5) []) "R"
                    (or_intror eq_refl)) eq_refl).
Defined.

Lemma spawnFood_interior_free_witness :
  spawnFood 2 (game_50x22 (pos 26 11) (map Int.repr [25; 11; 30; 5]))
  = Ok (game_50x22 (pos 30 5) [])
  /\ interior (game_50x22 (pos 30 5) []) (pos 30 5)
  /\ (pos 30 5 ∉ [pos 25 11; pos 24 11; pos 23 11]).
Proof.
  split; [reflexivity|].
  destruct (spawnFood_interior_free 2
              (game_50x22 (pos 26 11) (map Int.repr [25; 11; 30; 5]))
              (game_50x22 (pos 30 5) [])) as (Hin & Hfree & _).
  - vm_compute. discriminate.
  - vm_compute. discriminate.
  - reflexivity.
  - split; [exact Hin | exact Hfree].
Defined.

(** The state after the constructor and one step that eats. *)
Lemma reachable_fed :
  reachable (Int.repr 50) (Int.repr 22) (game_50x22_fed (pos 7 3) []).
Proof.
  apply (reachable_step _ _ 1 (game_50x22 (pos 26 11) [Int.repr 7; Int.repr 3]));
    [|reflexivity].
  apply (reachable_new _ _ 2 (map Int.repr [25; 11; 26; 11; 7; 3])). reflexivity.
Defined.

Lemma reachable_inside_walls_witness :
  Forall (interior (game_50x22_fed (pos 7 3) []))
    [pos 26 11; pos 25 11; pos 24 11; pos 23 11]
  /\ interior (game_50x22_fed (pos 7 3) []) (pos 7 3)
  /\ exists buf, buildBuffer (game_50x22_fed (pos 7 3) []) = Ok buf
                 /\ buf_dims 22 50 buf.
Proof.
  destruct (reachable_inside_walls (Int.repr 50) (Int.repr 22)
              (game_50x22_fed (pos 7 3) [])) as (Hs & Hf & _ & _ & Hbuf).
  - vm_compute. discriminate.
  - vm_compute. discriminate.
  - exact reachable_fed.
  - split; [exact Hs|]. split; [exact Hf|]. exact Hbuf.
Defined.

Lemma reachable_no_duplicates_witness :
  NoDup [pos 26 11; pos 25 11; pos 24 11; pos 23 11].
Proof.
  exact (proj1 reachable_no_duplicates (Int.repr 50) (Int.repr 22)
           (game_50x22_fed (pos 7 3) []) reachable_fed).
Defined.

Lemma reachable_score_length_witness :
  Int.signed (score_ (game_50x22_fed (pos 7 3) [])) = 10 * (4 - 3).
Proof.
  destruct (reachable_score_length (Int.repr 50) (Int.repr 22)
              (game_50x22_fed (pos 7 3) []) reachable_fed) as (_ & _ & Hexact).
  apply Hexact; vm_compute; discriminate.
Defined.

(** ** More runs of the program's game *)

(** The fed game of above, and the game after running into the right
    wall. *)
Definition fed : Game (list int) := game_50x22_fed (pos 7 3) [].

Definition crashed : Game (list int) := with_gameOver game_at_wall true.

(** The frame of a state, the empty frame if [buildBuffer] fails. *)
Definition frame_of (st : Game (list int)) : Buffer :=
  match buildBuffer st with
  | Ok buf => buf
  | _ => []
  end.

(** A 3 by 3 board: its interior is the single cell (1, 1). *)
Definition full_board : Game (list int) :=
  mkGame (Int.repr 3) (Int.repr 3) [] [pos 1 1] (pos 1 1) Right false false
         (Int.repr 0) (Int.repr 110).

(** The POSIX build with a nanosecond clock. *)
Definition posix : Host := mkHost pollKey_posix 1000000.

(** The fed game, entered into the loop with q typed. *)
Definition world_q : World (list int) := mkWorld fed ["q"%char; "w"%char] 0 [].

Definition world_after (m : Moment) (wd : World (list int)) : World (list int) :=
  match loop_body posix 0 m wd with
  | Ok wd' => wd'
  | _ => wd
  end.

(** Twenty-three ticks take the head to the wall, the next one ends the
    game. *)
Lemma reachable_crashed : reachable (Int.repr 50) (Int.repr 22) crashed.
Proof.
  apply (play_reachable 0 (replicate 24 Tick) _ _ (game_50x22 (pos 30 5) [])).
  - apply (reachable_new _ _ 1 [Int.repr 30; Int.repr 5]). reflexivity.
  - vm_compute. reflexivity.
Defined.

Lemma reachable_length_below_interior_witness :
  Z.of_nat (length (snake_ fed)) < (50 - 2) * (22 - 2).
Proof.
  apply (reachable_length_below_interior (Int.repr 50) (Int.repr 22) fed);
    [vm_compute; discriminate | vm_compute; discriminate | exact reachable_fed].
Defined.

Lemma reachable_snake_connected_witness : neighbours (pos 26 11) (pos 25 11).
Proof.
  apply (reachable_snake_connected (Int.repr 50) (Int.repr 22) fed 0);
    [vm_compute; discriminate | vm_compute; discriminate | exact reachable_fed
    | reflexivity | reflexivity].
Defined.

Lemma reachable_tick_by_length_witness :
  Int.signed (tickMs_ fed) = Z.max 55 (110 - 2 * (Z.of_nat (length (snake_ fed)) - 3)).
Proof.
  exact (reachable_tick_by_length (Int.repr 50) (Int.repr 22) fed reachable_fed).
Defined.

Lemma handleInput_ignores_other_keys_witness : handleInput 0 "x" fed = Ok fed.
Proof.
  apply (handleInput_ignores_other_keys 0 fed "x").
  unfold known_keys. intros Hin.
  repeat (apply elem_of_cons in Hin as [Hin | Hin]; [discriminate|]).
  inversion Hin.
Defined.

Lemma handleInput_touches_only_dir_and_quit_witness :
  exists (d : Dir) (q : bool),
    handleInput 0 "q" game_over
    = Ok (mkGame (w_ game_over) (h_ game_over) (rnd_ game_over) (snake_ game_over)
            (food_ game_over) d q (gameOver_ game_over) (score_ game_over)
            (tickMs_ game_over))
    /\ (q = true <-> quit_ game_over = true \/ "q"%char = "q"%char \/ "q"%char = "Q"%char).
Proof.
  apply (handleInput_touches_only_dir_and_quit 0 game_over "q").
  intros [[E | E] _]; discriminate.
Defined.

Lemma play_gameOver_frozen_witness :
  exists (d : Dir) (q : bool),
    play 0 [Tick; Key "w"; Tick; Key "q"] game_over
    = Ok (mkGame (w_ game_over) (h_ game_over) (rnd_ game_over) (snake_ game_over)
            (food_ game_over) d q true (score_ game_over) (tickMs_ game_over)).
Proof.
  apply (play_gameOver_frozen 0 [Tick; Key "w"; Tick; Key "q"] game_over).
  - reflexivity.
  - intros Hin. repeat (apply elem_of_cons in Hin as [Hin | Hin]; [discriminate|]).
    inversion Hin.
  - intros Hin. repeat (apply elem_of_cons in Hin as [Hin | Hin]; [discriminate|]).
    inversion Hin.
Defined.

Lemma reversal_by_two_keys_witness :
  play 0 [Key "w"; Key "a"; Tick] (game_50x22 (pos 30 5) [])
  = Ok (mkGame (Int.repr 50) (Int.repr 22) [] [pos 25 11; pos 24 11; pos 23 11]
          (pos 30 5) Left false true (Int.repr 0) (Int.repr 110)).
Proof.
  apply (reversal_by_two_keys 0 (game_50x22 (pos 30 5) []) (pos 25 11) (pos 24 11)
           [pos 23 11] Up "w" "a").
  - reflexivity.
  - reflexivity.
  - apply coords_inj. reflexivity.
  - discriminate.
  - discriminate.
  - left.
  - left.
Defined.

Lemma step_body_follows_head_witness :
  exists (head : Vec2) (rest : list Vec2),
    snake_ (game_50x22 (pos 26 11) [Int.repr 7; Int.repr 3]) = head :: rest
    /\ snake_ fed !! 0%nat = Some (advance Right head)
    /\ (forall (i : nat) (a : Vec2),
          snake_ fed !! S i = Some a ->
          snake_ (game_50x22 (pos 26 11) [Int.repr 7; Int.repr 3]) !! i = Some a)
    /\ length (snake_ fed)
       = if decide (advance Right head = pos 26 11) then 4%nat else 3%nat.
Proof.
  apply (step_body_follows_head 1 (game_50x22 (pos 26 11) [Int.repr 7; Int.repr 3]) fed);
    reflexivity.
Defined.

Lemma step_keeps_or_grows_witness :
  length (snake_ fed)
  = S (length (snake_ (game_50x22 (pos 26 11) [Int.repr 7; Int.repr 3]))).
Proof.
  assert (E : step 1 (game_50x22 (pos 26 11) [Int.repr 7; Int.repr 3]) = Ok fed)
    by reflexivity.
  destruct (step_keeps_or_grows 1 (game_50x22 (pos 26 11) [Int.repr 7; Int.repr 3]) fed E)
    as (_ & _ & _ & _ & [[Hlen _] | Hlen]).
  - discriminate Hlen.
  - exact Hlen.
Defined.

Lemma spawnFood_loop_first_free_witness :
  spawnFood_loop 2 (Int.repr 50) (Int.repr 22) [pos 25 11; pos 24 11; pos 23 11]
    (map Int.repr [25; 11; 30; 5])
  = Ok (pos 30 5, []).
Proof.
  refine (eq_trans
            (spawnFood_loop_first_free 1 2 (Int.repr 50) (Int.repr 22)
               [pos 25 11; pos 24 11; pos 23 11] (map Int.repr [25; 11; 30; 5]) _ _ _ _)
            _).
  - split; reflexivity.
  - intros k Hk. assert (k = 0%nat) as -> by lia. left.
  - apply hitSelf_loop_not_elem. reflexivity.
  - lia.
  - reflexivity.
Defined.

Lemma spawnFood_full_board_loops_witness : spawnFood 1000 full_board = OutOfFuel.
Proof.
  apply (spawnFood_full_board_loops 1000 full_board).
  - vm_compute. discriminate.
  - vm_compute. discriminate.
  - intros p [[Hx1 Hx2] [Hy1 Hy2]].
    change (Int.signed (w_ full_board)) with 3 in Hx2.
    change (Int.signed (h_ full_board)) with 3 in Hy2.
    replace p with (pos 1 1); [left|].
    apply coords_inj. unfold coords.
    change (Int.signed (x (pos 1 1))) with 1. change (Int.signed (y (pos 1 1))) with 1.
    f_equal; lia.
Defined.

Lemma buildBuffer_fed : buildBuffer fed = Ok (frame_of fed).
Proof. vm_compute. reflexivity. Qed.

Lemma buildBuffer_crashed : buildBuffer crashed = Ok (frame_of crashed).
Proof. vm_compute. reflexivity. Qed.

Lemma frame_walls_witness :
  cell (frame_of fed) 21 5 = Some "#"%char
  /\ cell (frame_of fed) 7 49 = Some "#"%char
  /\ cell (frame_of fed) 0 1 = Some "#"%char.
Proof.
  assert (Hw : 6 <= Int.signed (Int.repr 50)) by (vm_compute; discriminate).
  assert (Hh : 3 <= Int.signed (Int.repr 22)) by (vm_compute; discriminate).
  split; [|split];
    apply (frame_walls (Int.repr 50) (Int.repr 22) fed (frame_of fed) _ _ Hw Hh
             reachable_fed buildBuffer_fed).
  - left. change (Int.signed (Int.repr 22)) with 22. change (Int.signed (Int.repr 50)) with 50.
    lia.
  - right; left. change (Int.signed (Int.repr 22)) with 22.
    change (Int.signed (Int.repr 50)) with 50. lia.
  - right; right. split; [reflexivity|]. left. lia.
Defined.

Lemma frame_snake_and_food_witness :
  cell (frame_of fed) 11 26 = Some "O"%char
  /\ cell (frame_of fed) 11 25 = Some "o"%char
  /\ cell (frame_of fed) 3 7 = Some "*"%char.
Proof.
  assert (Hw : 6 <= Int.signed (Int.repr 50)) by (vm_compute; discriminate).
  assert (Hh : 3 <= Int.signed (Int.repr 22)) by (vm_compute; discriminate).
  destruct (frame_snake_and_food (Int.repr 50) (Int.repr 22) fed (frame_of fed)
              (pos 26 11) [pos 25 11; pos 24 11; pos 23 11] Hw Hh
              reachable_fed buildBuffer_fed eq_refl) as (Hhead & Hbody & Hfood).
  split; [|split].
  - apply Hhead. now left.
  - apply (Hbody (pos 25 11)); [left | now left].
  - apply Hfood. now left.
Defined.

Lemma frame_hud_witness : cell (frame_of fed) 0 2 = Some "S"%char.
Proof.
  apply (frame_hud (Int.repr 50) (Int.repr 22) fed (frame_of fed) 0 "S").
  - vm_compute. discriminate.
  - vm_compute. discriminate.
  - exact reachable_fed.
  - exact buildBuffer_fed.
  - reflexivity.
  - vm_compute. reflexivity.
Defined.

Lemma frame_gameOver_message_witness : cell (frame_of crashed) 11 10 = Some "G"%char.
Proof.
  apply (frame_gameOver_message (Int.repr 50) (Int.repr 22) crashed (frame_of crashed)
           0 "G").
  - vm_compute. discriminate.
  - vm_compute. discriminate.
  - exact reachable_crashed.
  - exact buildBuffer_crashed.
  - reflexivity.
  - reflexivity.
  - vm_compute. reflexivity.
Defined.

Lemma frame_blank_elsewhere_witness : cell (frame_of fed) 1 1 = Some " "%char.
Proof.
  apply (frame_blank_elsewhere (Int.repr 50) (Int.repr 22) fed (frame_of fed) 1 1).
  - vm_compute. discriminate.
  - vm_compute. discriminate.
  - exact reachable_fed.
  - exact buildBuffer_fed.
  - change (Int.signed (Int.repr 22)) with 22. lia.
  - change (Int.signed (Int.repr 50)) with 50. lia.
  - intros p Hin [Ey Ex].
    repeat (apply elem_of_cons in Hin as [-> | Hin]; [vm_compute in Ey; discriminate|]).
    inversion Hin.
  - now left.
Defined.

Lemma windows_extended_key_swallowed_witness :
  pollInput (mkHost pollKey_windows 1000000) 0 fed ["224"%char; "H"%char; "w"%char]
  = Ok (fed, ["w"%char]).
Proof.
  apply (windows_extended_key_swallowed 0 fed "224" "H" ["w"%char] 1000000). now right.
Defined.

Lemma loop_body_world_q :
  loop_body posix 0 (mkMoment [] 5000000) world_q
  = Ok (world_after (mkMoment [] 5000000) world_q).
Proof. vm_compute. reflexivity. Qed.

Lemma run_loop_quits_witness :
  run_loop posix 0 [mkMoment [] 5000000; mkMoment ["d"%char] 200000000] world_q
  = Ok (Int.repr 0, world_after (mkMoment [] 5000000) world_q)
  /\ pending_keys (world_after (mkMoment [] 5000000) world_q) = ["w"%char].
Proof.
  destruct (run_loop_quits posix 0 (mkMoment [] 5000000) [mkMoment ["d"%char] 200000000]
              (Int.repr 50) (Int.repr 22) world_q "q" ["w"%char])
    as (Hrun & Hquit & _).
  - vm_compute. discriminate.
  - vm_compute. discriminate.
  - exact reachable_fed.
  - reflexivity.
  - reflexivity.
  - now left.
  - split.
    + rewrite Hrun, loop_body_world_q. reflexivity.
    + exact (proj1 (Hquit _ loop_body_world_q)).
Defined.

Lemma loop_body_draws_full_frame_witness :
  Z.of_nat (length (output (world_after (mkMoment [] 5000000) world_q)))
  = 0 + 7 + 22 * (50 + 1).
Proof.
  apply (loop_body_draws_full_frame posix 0 (mkMoment [] 5000000) (Int.repr 50)
           (Int.repr 22) world_q (world_after (mkMoment [] 5000000) world_q)).
  - vm_compute. discriminate.
  - vm_compute. discriminate.
  - exact reachable_fed.
  - exact loop_body_world_q.
Defined.
